(** * IMU propagation and point-cloud deskew of M_FASTLIVO

    A shallow embedding of [src/fastlivo/src/map_builder/imu_processor.cpp]
    (class [livo::IMUProcessor]) together with the properties its
    specification states about it.

    Modelling conventions.
    - [double] (and the [float] fields of a point) are idealised as exact
      rationals [Qc]: no rounding, no NaN, no infinities.  Comparisons and
      the control flow that depends on them are the source's.
    - [std::vector] is a [list]; an iterator is an index from [begin()].
      Reading through an iterator outside the vector, or [back()] of an
      empty vector, is the outcome [OutOfBounds].
    - The estimator ([kf::IESKF]), Sophus and Eigen's quaternion helper
      are external collaborators: they are the fields of the class
      [Externals], and the theorems hold for every instance of it.
    - The estimator handle carries a ghost history [IESKF.calls] of the
      arguments of every [predict] invocation, and the deskew pass
      returns a ghost trace of the points it overwrote. *)

From Stdlib Require Import QArith Qcanon Ring Field.
From stdpp Require Import base tactics option numbers list sorting.

Local Open Scope Qc_scope.

(** ** Scalars *)

(** A decimal or fractional literal of the source. *)
Definition q (n : Z) (d : positive) : Qc := Q2Qc (n # d).

(** [static_cast<double>(n)] for a container size. *)
Definition double_of_size (n : nat) : Qc := Qc_of_Z (Z.of_nat n).

(** ** Eigen 3-vectors and 3x3 matrices *)

Record V3D := Vec3 { vx : Qc; vy : Qc; vz : Qc }.

Record M3D := Mat3 { r0 : V3D; r1 : V3D; r2 : V3D }.

#[global] Instance V3D_eq_dec : EqDecision V3D.
Proof. solve_decision. Defined.

#[global] Instance M3D_eq_dec : EqDecision M3D.
Proof. solve_decision. Defined.

Definition vzero : V3D := Vec3 0 0 0.
Definition vadd (u v : V3D) : V3D := Vec3 (vx u + vx v) (vy u + vy v) (vz u + vz v).
Definition vsub (u v : V3D) : V3D := Vec3 (vx u - vx v) (vy u - vy v) (vz u - vz v).
Definition vopp (u : V3D) : V3D := Vec3 (- vx u) (- vy u) (- vz u).
(** [s * v], scalar on the left. *)
Definition smul (s : Qc) (v : V3D) : V3D := Vec3 (s * vx v) (s * vy v) (s * vz v).
(** [v * s], scalar on the right. *)
Definition vmuls (v : V3D) (s : Qc) : V3D := Vec3 (vx v * s) (vy v * s) (vz v * s).
(** [v / s]. *)
Definition vdivs (v : V3D) (s : Qc) : V3D := Vec3 (vx v / s) (vy v / s) (vz v / s).
Definition dot (u v : V3D) : Qc := vx u * vx v + vy u * vy v + vz u * vz v.

Definition midentity : M3D := Mat3 (Vec3 1 0 0) (Vec3 0 1 0) (Vec3 0 0 1).
Definition col0 (m : M3D) : V3D := Vec3 (vx (r0 m)) (vx (r1 m)) (vx (r2 m)).
Definition col1 (m : M3D) : V3D := Vec3 (vy (r0 m)) (vy (r1 m)) (vy (r2 m)).
Definition col2 (m : M3D) : V3D := Vec3 (vz (r0 m)) (vz (r1 m)) (vz (r2 m)).
Definition transpose (m : M3D) : M3D := Mat3 (col0 m) (col1 m) (col2 m).
(** Matrix times vector. *)
Definition mapply (m : M3D) (v : V3D) : V3D := Vec3 (dot (r0 m) v) (dot (r1 m) v) (dot (r2 m) v).
(** Matrix product. *)
Definition mmul (a b : M3D) : M3D :=
  Mat3 (Vec3 (dot (r0 a) (col0 b)) (dot (r0 a) (col1 b)) (dot (r0 a) (col2 b)))
       (Vec3 (dot (r1 a) (col0 b)) (dot (r1 a) (col1 b)) (dot (r1 a) (col2 b)))
       (Vec3 (dot (r2 a) (col0 b)) (dot (r2 a) (col1 b)) (dot (r2 a) (col2 b))).

Declare Scope eigen_scope.
Delimit Scope eigen_scope with E.
Infix "+^" := vadd (at level 50, left associativity) : eigen_scope.
Infix "-^" := vsub (at level 50, left associativity) : eigen_scope.
Infix "*^" := smul (at level 40, left associativity) : eigen_scope.
Infix "^*" := vmuls (at level 40, left associativity) : eigen_scope.
Infix "*v" := mapply (at level 40, left associativity) : eigen_scope.
Infix "**" := mmul (at level 40, left associativity) : eigen_scope.
Local Open Scope eigen_scope.

(** A dynamically indexed square matrix (the covariance [P], the process
    noise [m_Q]): entry [(i, j)]. *)
Definition Mat : Type := nat -> nat -> Qc.

(** [M.setIdentity()]. *)
Definition setIdentity : Mat := fun i j => if Nat.eqb i j then 1 else 0.

(** [M.block<n, n>(k, k) = Identity * s]. *)
Definition set_diag_block (n k : nat) (s : Qc) (M : Mat) : Mat :=
  fun i j =>
    if (Nat.leb k i && Nat.ltb i (k + n) && Nat.leb k j && Nat.ltb j (k + n))%bool
    then (if Nat.eqb i j then 1 * s else 0 * s)
    else M i j.

(** ** Data model *)

Module IMUData.
Record t := mk { acc : V3D; gyro : V3D; timestamp : Qc }.
End IMUData.

(** A scan point; [curvature] holds the time offset in milliseconds from
    the scan start.  The remaining fields of the PCL point are never
    touched by this file and are left out. *)
Module PointType.
Record t := mk { x : Qc; y : Qc; z : Qc; curvature : Qc }.
End PointType.

(** An entry of [m_imu_poses_cache]; the constructor takes the fields in
    the order of the source's [emplace_back]. *)
Module Pose.
Record t := mk { offset : Qc; acc : V3D; gyro : V3D; vel : V3D; pos : V3D; rot : M3D }.
End Pose.

Module SyncPackage.
Record t := mk {
    imus : list IMUData.t;
    cloud : list PointType.t;
    cloud_start_time : Qc;
    cloud_end_time : Qc }.
End SyncPackage.

Module Input.
Record t := mk { acc : V3D; gyro : V3D }.
End Input.

(** The estimator's mean state [kf::State]. *)
Module State.
Record t := mk {
    rot : M3D; pos : V3D; vel : V3D; bg : V3D; ba : V3D; g : V3D;
    rot_ext : M3D; pos_ext : V3D }.
End State.

(** The shared estimator: mean [x()], covariance [P()], and the ghost
    history of [predict] invocations as (input, dt) in call order. *)
Module IESKF.
Record t := mk { x : State.t; P : Mat; calls : list (Input.t * Qc) }.
End IESKF.

Module Config.
Record t := mk {
    ng : Qc; na : Qc; nbg : Qc; nba : Qc;
    imu_init_num : nat;
    gravity_align : bool;
    r_il : M3D; p_il : V3D }.
End Config.

Module IMUProcessor.
Record t := mk {
    m_config : Config.t;
    m_kf : IESKF.t;
    m_Q : Mat;
    m_last_acc : V3D;
    m_last_gyro : V3D;
    m_imu_cache : list IMUData.t;
    m_imu_poses_cache : list Pose.t;
    m_last_imu : IMUData.t;
    m_last_end_time : Qc;
    is_initialized : bool }.
End IMUProcessor.

#[global] Instance IMUData_eq_dec : EqDecision IMUData.t.
Proof. solve_decision. Defined.
#[global] Instance PointType_eq_dec : EqDecision PointType.t.
Proof. solve_decision. Defined.
#[global] Instance Pose_eq_dec : EqDecision Pose.t.
Proof. solve_decision. Defined.
#[global] Instance Input_eq_dec : EqDecision Input.t.
Proof. solve_decision. Defined.
#[global] Instance State_eq_dec : EqDecision State.t.
Proof. solve_decision. Defined.

(** ** Outcomes *)

(** What a call produces: a value, or an access outside a vector. *)
Inductive Result (A : Type) : Type :=
  | Ok (a : A)
  | OutOfBounds.
Arguments Ok {A} a.
Arguments OutOfBounds {A}.

Definition bind {A B} (m : Result A) (k : A -> Result B) : Result B :=
  match m with
  | Ok a => k a
  | OutOfBounds => OutOfBounds
  end.

Notation "'let*' p ':=' m 'in' k" := (bind m (fun p => k))
  (at level 10, p pattern, m at level 100, k at level 200).

(** [v.back()]. *)
Definition back {A} (v : list A) : Result A :=
  match last v with
  | Some a => Ok a
  | None => OutOfBounds
  end.

(** The consecutive pairs [(v[i], v[i+1])] of a vector, in order. *)
Fixpoint adjacent {A} (v : list A) : list (A * A) :=
  match v with
  | a :: (b :: _) as v' => (a, b) :: adjacent v'
  | _ => []
  end.

(** ** External collaborators *)

(** The operations this file calls but does not define: the estimator's
    prediction and gravity seeding, Sophus' rotational exponential,
    Eigen's shortest-arc rotation and normalisation, and the value of a
    default-constructed [kf::Input]. *)
Class Externals := {
  (** [kf.predict(inp, dt, Q)] on the pair (mean, covariance). *)
  kf_predict : State.t * Mat -> Input.t -> Qc -> Mat -> State.t * Mat;
  (** [x.initG(dir)]. *)
  initG : V3D -> State.t -> State.t;
  (** [Sophus::SO3d::exp(w).matrix()]. *)
  so3_exp : V3D -> M3D;
  (** [Eigen::Quaterniond::FromTwoVectors(a, b).matrix()]. *)
  from_two_vectors : V3D -> V3D -> M3D;
  (** [v.normalized()]. *)
  normalized : V3D -> V3D;
  (** [kf::Input inp;] *)
  default_input : Input.t }.

(** ** Record updates *)

Definition set_ext_bg (r : M3D) (p : V3D) (b : V3D) (s : State.t) : State.t :=
  State.mk (State.rot s) (State.pos s) (State.vel s) b (State.ba s) (State.g s) r p.

Definition set_rot (r : M3D) (s : State.t) : State.t :=
  State.mk r (State.pos s) (State.vel s) (State.bg s) (State.ba s) (State.g s)
           (State.rot_ext s) (State.pos_ext s).

Definition set_g (v : V3D) (s : State.t) : State.t :=
  State.mk (State.rot s) (State.pos s) (State.vel s) (State.bg s) (State.ba s) v
           (State.rot_ext s) (State.pos_ext s).

Definition set_imu_cache (c : list IMUData.t) (p : IMUProcessor.t) : IMUProcessor.t :=
  IMUProcessor.mk (IMUProcessor.m_config p) (IMUProcessor.m_kf p) (IMUProcessor.m_Q p)
    (IMUProcessor.m_last_acc p) (IMUProcessor.m_last_gyro p) c
    (IMUProcessor.m_imu_poses_cache p) (IMUProcessor.m_last_imu p)
    (IMUProcessor.m_last_end_time p) (IMUProcessor.is_initialized p).

Definition set_is_initialized (b : bool) (p : IMUProcessor.t) : IMUProcessor.t :=
  IMUProcessor.mk (IMUProcessor.m_config p) (IMUProcessor.m_kf p) (IMUProcessor.m_Q p)
    (IMUProcessor.m_last_acc p) (IMUProcessor.m_last_gyro p) (IMUProcessor.m_imu_cache p)
    (IMUProcessor.m_imu_poses_cache p) (IMUProcessor.m_last_imu p)
    (IMUProcessor.m_last_end_time p) b.

Definition set_cloud (c : list PointType.t) (s : SyncPackage.t) : SyncPackage.t :=
  SyncPackage.mk (SyncPackage.imus s) c (SyncPackage.cloud_start_time s)
                 (SyncPackage.cloud_end_time s).

(** ** The processor *)

Section Processor.

Context {ext : Externals}.

(** [m_kf->predict(inp, dt, Q)]: the estimator advances mean and
    covariance; the invocation is recorded in the ghost history. *)
Definition predict (kf : IESKF.t) (inp : Input.t) (dt : Qc) (Q : Mat) : IESKF.t :=
  let xP := kf_predict (IESKF.x kf, IESKF.P kf) inp dt Q in
  IESKF.mk (fst xP) (snd xP) (IESKF.calls kf ++ [(inp, dt)]).

(** *** Constructor (lines 5-17)

    [m_last_imu] and [m_last_end_time] are not assigned by the
    constructor; their initial values come from the class declaration and
    are arguments here. *)
Definition new (config : Config.t) (kf : IESKF.t)
    (last_imu : IMUData.t) (last_end_time : Qc) : IMUProcessor.t :=
  let m_Q := setIdentity in
  let m_Q := set_diag_block 3 0 (Config.ng config) m_Q in
  let m_Q := set_diag_block 3 3 (Config.na config) m_Q in
  let m_Q := set_diag_block 3 6 (Config.nbg config) m_Q in
  let m_Q := set_diag_block 3 9 (Config.nba config) m_Q in
  IMUProcessor.mk config kf m_Q vzero vzero [] [] last_imu last_end_time false.

(** *** initialize (lines 19-52) *)

(** The accumulation loop of lines 26-30: running sums of acceleration
    and angular velocity. *)
Definition sum_step (s : V3D * V3D) (imu : IMUData.t) : V3D * V3D :=
  (fst s +^ IMUData.acc imu, snd s +^ IMUData.gyro imu).

(** The covariance written by lines 44-49. *)
Definition init_P : Mat :=
  let P := setIdentity in
  let P := set_diag_block 3 6 (q 1 100000) P in
  let P := set_diag_block 3 9 (q 1 100000) P in
  let P := set_diag_block 3 15 (q 1 10000) P in
  let P := set_diag_block 3 18 (q 1 10000) P in
  set_diag_block 2 21 (q 1 100000) P.

(** The mean state written by lines 33-43. *)
Definition seed_state (config : Config.t) (acc_mean gyro_mean : V3D) (x : State.t) : State.t :=
  let x := set_ext_bg (Config.r_il config) (Config.p_il config) gyro_mean x in
  if Config.gravity_align config then
    let x := set_rot (from_two_vectors (normalized (vopp acc_mean)) (Vec3 0 0 (- 1))) x in
    initG (Vec3 0 0 (- 1)) x
  else initG (vopp acc_mean) x.

Definition initialize (self : IMUProcessor.t) (imus : list IMUData.t)
    : Result (bool * IMUProcessor.t) :=
  let m_imu_cache := IMUProcessor.m_imu_cache self ++ imus in
  let self := set_imu_cache m_imu_cache self in
  if bool_decide (length m_imu_cache < Config.imu_init_num (IMUProcessor.m_config self))%nat
  then Ok (false, self)
  else
    let sums := foldl sum_step (vzero, vzero) m_imu_cache in
    let acc_mean := vdivs (fst sums) (double_of_size (length m_imu_cache)) in
    let gyro_mean := vdivs (snd sums) (double_of_size (length m_imu_cache)) in
    let kf := IMUProcessor.m_kf self in
    let x := seed_state (IMUProcessor.m_config self) acc_mean gyro_mean (IESKF.x kf) in
    let kf := IESKF.mk x init_P (IESKF.calls kf) in
    let* m_last_imu := back m_imu_cache in
    Ok (true,
        IMUProcessor.mk (IMUProcessor.m_config self) kf (IMUProcessor.m_Q self)
          (IMUProcessor.m_last_acc self) (IMUProcessor.m_last_gyro self) m_imu_cache
          (IMUProcessor.m_imu_poses_cache self) m_last_imu
          (IMUProcessor.m_last_end_time self) (IMUProcessor.is_initialized self)).

(** *** undistort, propagation part (lines 56-99) *)

(** The pose-cache entry for the estimator's current mean. *)
Definition pose_of (offset : Qc) (acc gyro : V3D) (x : State.t) : Pose.t :=
  Pose.mk offset acc gyro (State.vel x) (State.pos x) (State.rot x).

(** The locals and members the sample loop reads and writes. *)
Record Loop := MkLoop {
  l_kf : IESKF.t;
  l_last_acc : V3D;
  l_last_gyro : V3D;
  l_poses : list Pose.t;
  l_inp : Input.t }.

(** One iteration of the loop of lines 73-95 on the pair
    [(head, tail) = (it_imu[0], it_imu[1])]. *)
Definition imu_step (m_Q : Mat) (m_last_end_time cloud_time_begin : Qc)
    (s : Loop) (ht : IMUData.t * IMUData.t) : Loop :=
  let head := fst ht in
  let tail := snd ht in
  if bool_decide (IMUData.timestamp tail < m_last_end_time) then s
  else
    let gyro_val := q 1 2 *^ (IMUData.gyro head +^ IMUData.gyro tail) in
    let acc_val := q 1 2 *^ (IMUData.acc head +^ IMUData.acc tail) in
    let dt :=
      if bool_decide (IMUData.timestamp head < m_last_end_time)
      then IMUData.timestamp tail - m_last_end_time
      else IMUData.timestamp tail - IMUData.timestamp head in
    let inp := Input.mk acc_val gyro_val in
    let kf := predict (l_kf s) inp dt m_Q in
    let x := IESKF.x kf in
    let m_last_gyro := gyro_val -^ State.bg x in
    let m_last_acc := State.rot x *v (acc_val -^ State.ba x) +^ State.g x in
    let offset := IMUData.timestamp tail - cloud_time_begin in
    MkLoop kf m_last_acc m_last_gyro
           (l_poses s ++ [pose_of offset m_last_acc m_last_gyro x]) inp.

(** Lines 56-99.  [m_imu_cache] is [m_last_imu] followed by the batch, so
    it is never empty and [back()] is its last element. *)
Definition propagate (self : IMUProcessor.t) (package : SyncPackage.t) : IMUProcessor.t :=
  let m_imu_cache := IMUProcessor.m_last_imu self :: SyncPackage.imus package in
  let imu_time_end :=
    IMUData.timestamp (List.last (SyncPackage.imus package) (IMUProcessor.m_last_imu self)) in
  let cloud_time_begin := SyncPackage.cloud_start_time package in
  let cloud_time_end := SyncPackage.cloud_end_time package in
  let kf := IMUProcessor.m_kf self in
  let seed := pose_of 0 (IMUProcessor.m_last_acc self) (IMUProcessor.m_last_gyro self)
                      (IESKF.x kf) in
  let s := MkLoop kf (IMUProcessor.m_last_acc self) (IMUProcessor.m_last_gyro self)
                  [seed] default_input in
  let s := foldl (imu_step (IMUProcessor.m_Q self) (IMUProcessor.m_last_end_time self)
                           cloud_time_begin) s (adjacent m_imu_cache) in
  let dt := cloud_time_end - imu_time_end in
  let kf := predict (l_kf s) (l_inp s) dt (IMUProcessor.m_Q self) in
  IMUProcessor.mk (IMUProcessor.m_config self) kf (IMUProcessor.m_Q self)
    (l_last_acc s) (l_last_gyro s) m_imu_cache (l_poses s)
    (List.last (SyncPackage.imus package) (IMUProcessor.m_last_imu self))
    cloud_time_end (IMUProcessor.is_initialized self).

(** *** undistort, compensation part (lines 101-131) *)

(** The end pose captured at lines 102-105. *)
Record EndPose := MkEndPose {
  cur_rot : M3D;
  cur_pos : V3D;
  cur_rot_ext : M3D;
  cur_pos_ext : V3D }.

Definition end_pose (x : State.t) : EndPose :=
  MkEndPose (State.rot x) (State.pos x) (State.rot_ext x) (State.pos_ext x).

(** The body of the inner loop, lines 120-127: the point written back
    for the point [p] in the interval [(head, tail)]. *)
Definition compensate (cur : EndPose) (head tail : Pose.t) (p : PointType.t) : PointType.t :=
  let imu_rot := Pose.rot head in
  let imu_pos := Pose.pos head in
  let imu_vel := Pose.vel head in
  let imu_acc := Pose.acc tail in
  let imu_gyro := Pose.gyro tail in
  let dt := PointType.curvature p / q 1000 1 - Pose.offset head in
  let point := Vec3 (PointType.x p) (PointType.y p) (PointType.z p) in
  let point_rot := imu_rot ** so3_exp (imu_gyro ^* dt) in
  let point_pos := imu_pos +^ imu_vel ^* dt +^ q 1 2 *^ imu_acc ^* dt ^* dt in
  let p_compensate :=
    transpose (cur_rot_ext cur) *v
      (transpose (cur_rot cur) *v
         (point_rot *v (cur_rot_ext cur *v point +^ cur_pos_ext cur) +^ point_pos -^ cur_pos cur)
       -^ cur_pos_ext cur) in
  PointType.mk (vx p_compensate) (vy p_compensate) (vz p_compensate) (PointType.curvature p).

(** Ghost record of one execution of the inner loop's body: the index of
    the point overwritten and the interval it was overwritten in. *)
Record Visit := MkVisit { v_index : nat; v_head : Pose.t; v_tail : Pose.t }.

(** The inner loop of lines 118-130 for a cursor [it_pcl = begin() + it]
    at or after [begin()].  Returns the points, the cursor the loop is
    left at, and the extended trace. *)
Fixpoint walk (cur : EndPose) (head tail : Pose.t) (points : list PointType.t)
    (it : nat) (trace : list Visit) {struct it}
    : Result (list PointType.t * nat * list Visit) :=
  match points !! it with
  | None => OutOfBounds
  | Some p =>
      if bool_decide (Pose.offset head < PointType.curvature p / q 1000 1) then
        let points := <[it := compensate cur head tail p]> points in
        let trace := trace ++ [MkVisit it head tail] in
        match it with
        | O => Ok (points, O, trace)
        | S it' => walk cur head tail points it' trace
        end
      else Ok (points, it, trace)
  end.

(** The inner loop for any cursor: evaluating the loop condition reads
    [it_pcl->curvature], which is outside the vector for a cursor before
    [begin()]. *)
Definition inner_loop (cur : EndPose) (head tail : Pose.t) (points : list PointType.t)
    (it_pcl : Z) (trace : list Visit) : Result (list PointType.t * Z * list Visit) :=
  if bool_decide (it_pcl < 0)%Z then OutOfBounds
  else
    let* r := walk cur head tail points (Z.to_nat it_pcl) trace in
    Ok (r.1.1, Z.of_nat r.1.2, r.2).

(** The outer loop of lines 107-131 over the intervals still to do,
    latest first. *)
Fixpoint outer_loop (cur : EndPose) (intervals : list (Pose.t * Pose.t))
    (points : list PointType.t) (it_pcl : Z) (trace : list Visit)
    : Result (list PointType.t * list Visit) :=
  match intervals with
  | [] => Ok (points, trace)
  | (head, tail) :: rest =>
      let* r := inner_loop cur head tail points it_pcl trace in
      outer_loop cur rest r.1.1 r.1.2 r.2
  end.

(** Lines 106-131: [it_pcl] starts at [end() - 1]; [it_kp] runs from the
    last pose-cache entry down to the second, with [head = it_kp - 1]. *)
Definition deskew (cur : EndPose) (poses : list Pose.t) (points : list PointType.t)
    : Result (list PointType.t * list Visit) :=
  outer_loop cur (reverse (adjacent poses)) points (Z.of_nat (length points) - 1) [].

(** *** undistort (lines 54-132) *)

(** The comparator of line 65-66, as the order it sorts into. *)
Definition curvature_le (p1 p2 : PointType.t) : Prop :=
  PointType.curvature p1 <= PointType.curvature p2.

#[global] Instance curvature_le_dec : RelDecision curvature_le.
Proof. intros p1 p2. unfold curvature_le. apply _. Defined.

(** [std::sort] by curvature.  The standard fixes its result up to the
    order of points with equal curvature; the model is a merge sort. *)
Definition std_sort (points : list PointType.t) : list PointType.t :=
  merge_sort curvature_le points.

(** The outcome of [undistort]: the processor, the package with its
    cloud corrected in place, and the ghost trace of the deskew pass. *)
Definition undistort (self : IMUProcessor.t) (package : SyncPackage.t)
    : Result (IMUProcessor.t * SyncPackage.t * list Visit) :=
  let points := std_sort (SyncPackage.cloud package) in
  let self := propagate self package in
  let cur := end_pose (IESKF.x (IMUProcessor.m_kf self)) in
  let* r := deskew cur (IMUProcessor.m_imu_poses_cache self) points in
  Ok (self, set_cloud r.1 package, r.2).

(** *** process (lines 134-140) *)

Definition process (self : IMUProcessor.t) (sync : SyncPackage.t)
    : Result (IMUProcessor.t * SyncPackage.t) :=
  let* self :=
    (if IMUProcessor.is_initialized self then Ok self
     else let* r := initialize self (SyncPackage.imus sync) in
          Ok (set_is_initialized r.1 r.2)) in
  if IMUProcessor.is_initialized self then
    let* r := undistort self sync in Ok (r.1.1, r.1.2)
  else Ok (self, sync).

End Processor.

(** ** Specification-level definitions *)

(** The maximum of two scalars. *)
Definition qmax (a b : Qc) : Qc := if bool_decide (a < b) then b else a.

(** The arithmetic mean of two vectors. *)
Definition mean2 (a b : V3D) : V3D := vdivs (a +^ b) (q 2 1).

(** The midpoint input of a pair of samples. *)
Definition midpoint (ht : IMUData.t * IMUData.t) : Input.t :=
  Input.mk (mean2 (IMUData.acc ht.1) (IMUData.acc ht.2))
           (mean2 (IMUData.gyro ht.1) (IMUData.gyro ht.2)).

(** The step duration of a pair of samples. *)
Definition step_dt (last_end : Qc) (ht : IMUData.t * IMUData.t) : Qc :=
  IMUData.timestamp ht.2 - qmax (IMUData.timestamp ht.1) last_end.

(** A pair of samples is integrated when its tail is not before the
    last processed end time. *)
Definition integrated (last_end : Qc) (ht : IMUData.t * IMUData.t) : Prop :=
  last_end <= IMUData.timestamp ht.2.

#[global] Instance integrated_dec last_end ht : Decision (integrated last_end ht).
Proof. unfold integrated. apply _. Defined.

(** The working sample window of a call: the anchor, then the batch. *)
Definition window (self : IMUProcessor.t) (package : SyncPackage.t) : list IMUData.t :=
  IMUProcessor.m_last_imu self :: SyncPackage.imus package.

(** The pairs of the window that a call integrates, in order. *)
Definition steps (self : IMUProcessor.t) (package : SyncPackage.t)
    : list (IMUData.t * IMUData.t) :=
  filter (integrated (IMUProcessor.m_last_end_time self)) (adjacent (window self package)).

(** The arithmetic means of the accelerations and of the angular
    velocities of a buffer of samples. *)
Definition sample_means (buffer : list IMUData.t) : V3D * V3D :=
  let sums := foldl sum_step (vzero, vzero) buffer in
  (vdivs sums.1 (double_of_size (length buffer)),
   vdivs sums.2 (double_of_size (length buffer))).

(** The offset, in seconds, of a scan point. *)
Definition seconds (p : PointType.t) : Qc := PointType.curvature p / q 1000 1.

(** What holds of a visit when the inner loop consumes a point: the
    point's offset, read from the curvatures of the vector, exceeds the
    offset of the interval's head. *)
Definition consumed (curvatures : list Qc) (v : Visit) : Prop :=
  exists c, curvatures !! v_index v = Some c /\ Pose.offset (v_head v) < c / q 1000 1.

(** What a caller can observe of an outcome of [undistort]: the offsets
    of the pose cache, the indices of the points the deskew pass
    overwrote, in order, and the corrected cloud. *)
Definition observed (r : Result (IMUProcessor.t * SyncPackage.t * list Visit))
    : option (list Qc * list nat * list PointType.t) :=
  match r with
  | Ok (self, package, trace) =>
      Some (Pose.offset <$> IMUProcessor.m_imu_poses_cache self,
            v_index <$> trace, SyncPackage.cloud package)
  | OutOfBounds => None
  end.

(** The time the predictions of a history advance the estimator by. *)
Definition total_dt (calls : list (Input.t * Qc)) : Qc :=
  foldr (fun call sum => call.2 + sum) 0 calls.

(** The coordinates of a scan point. *)
Definition coords (p : PointType.t) : V3D :=
  Vec3 (PointType.x p) (PointType.y p) (PointType.z p).

(** The order of two successive visits of the deskew pass: the later one
    is at a smaller index, or both are at the first point. *)
Definition descends (i j : nat) : Prop := (j < i)%nat \/ (i = 0%nat /\ j = 0%nat).

(** A matrix with zeros off its diagonal. *)
Definition diagonal (M : Mat) : Prop := forall i j : nat, i <> j -> M i j = 0.

(** A matrix with a strictly positive diagonal. *)
Definition positive_diagonal (M : Mat) : Prop := forall i : nat, 0 < M i i.

Section Formula.

Context {ext : Externals}.

(** The compensation as the specification writes it:
    [p' = Rext^T (Rend^T (Rpt (Rext p + text) + ppt - pend) - text)]. *)
Definition extrapolated_rotation (head tail : Pose.t) (dt : Qc) : M3D :=
  Pose.rot head ** so3_exp (dt *^ Pose.gyro tail).

Definition extrapolated_position (head tail : Pose.t) (dt : Qc) : V3D :=
  Pose.pos head +^ dt *^ Pose.vel head +^ (q 1 2 * (dt * dt)) *^ Pose.acc tail.

Definition deskewed (Rend : M3D) (pend : V3D) (Rext : M3D) (text : V3D)
    (head tail : Pose.t) (p : PointType.t) : PointType.t :=
  let dt := seconds p - Pose.offset head in
  let Rpt := extrapolated_rotation head tail dt in
  let ppt := extrapolated_position head tail dt in
  let p0 := Vec3 (PointType.x p) (PointType.y p) (PointType.z p) in
  let p' :=
    transpose Rext *v (transpose Rend *v (Rpt *v (Rext *v p0 +^ text) +^ ppt -^ pend) -^ text) in
  PointType.mk (vx p') (vy p') (vz p') (PointType.curvature p).

(** Replaying a trace: each visit overwrites the point at its index with
    its deskewed image. *)
Definition replay (x : State.t) (trace : list Visit) (points : list PointType.t)
    : list PointType.t :=
  foldl (fun pts v =>
           alter (deskewed (State.rot x) (State.pos x) (State.rot_ext x) (State.pos_ext x)
                           (v_head v) (v_tail v)) (v_index v) pts)
        points trace.

(** The effect of one integrated pair on the loop state, in the
    specification's terms: predict with the midpoint input over the step
    duration, correct the measurements, append one pose-cache entry. *)
Definition advance (m_Q : Mat) (last_end start : Qc) (s : Loop)
    (ht : IMUData.t * IMUData.t) : Loop :=
  let inp := midpoint ht in
  let kf := predict (l_kf s) inp (step_dt last_end ht) m_Q in
  let x := IESKF.x kf in
  let gyro := Input.gyro inp -^ State.bg x in
  let acc := State.rot x *v (Input.acc inp -^ State.ba x) +^ State.g x in
  MkLoop kf acc gyro
         (l_poses s ++ [pose_of (IMUData.timestamp ht.2 - start) acc gyro x]) inp.

(** The input of the trailing prediction: the last midpoint input, or the
    default-constructed input when no pair was integrated. *)
Definition trailing_input (self : IMUProcessor.t) (package : SyncPackage.t) : Input.t :=
  default default_input (midpoint <$> last (steps self package)).

(** The duration of the trailing prediction. *)
Definition trailing_dt (self : IMUProcessor.t) (package : SyncPackage.t) : Qc :=
  SyncPackage.cloud_end_time package
  - IMUData.timestamp (List.last (SyncPackage.imus package) (IMUProcessor.m_last_imu self)).

(** The (input, dt) of the prediction of an integrated pair. *)
Definition prediction (last_end : Qc) (ht : IMUData.t * IMUData.t) : Input.t * Qc :=
  (midpoint ht, step_dt last_end ht).

End Formula.

(** The square root of a scalar that is the square of a rational. *)
Definition qsqrt (a : Qc) : option Qc :=
  let n := Qnum a in
  let d := Zpos (Qden a) in
  if bool_decide (0 <= n /\ Z.sqrt n * Z.sqrt n = n /\ Z.sqrt d * Z.sqrt d = d)%Z
  then Some (Q2Qc (Z.sqrt n # Z.to_pos (Z.sqrt d)))
  else None.

(** The unit vector along [v], for a vector whose norm is rational.  The
    zero vector has no direction and is returned as it is; so is a
    vector whose norm has no rational value. *)
Definition unit_vector (v : V3D) : V3D :=
  match qsqrt (dot v v) with
  | Some n => if bool_decide (n = 0) then v else vdivs v n
  | None => v
  end.

(** Modelled from the spec: [State::initG], a member of the estimator's
    state class, whose definition is not among the sources.  Section 3:
    gravity is a direction with a fixed magnitude.  Section 4.1: under
    the align policy gravity is "the canonical down vector scaled by
    standard gravity magnitude", and the source passes the unit down
    vector; under the no-align policy it is "the negated mean
    acceleration" of a level platform at rest, and the source passes the
    negated mean.  So [initG] sets gravity to the standard gravity
    magnitude [G] along the direction it is given, and writes no other
    field. *)
Definition initG_spec (G : Qc) (dir : V3D) (x : State.t) : State.t :=
  set_g (G *^ unit_vector dir) x.

(** ** A reference estimator and sample data *)

(** Translation-only dead reckoning: velocity and position integrate the
    gravity-compensated acceleration, attitude and covariance stay. *)
Definition dead_reckoning (xP : State.t * Mat) (inp : Input.t) (dt : Qc) (Q : Mat)
    : State.t * Mat :=
  let x := xP.1 in
  let a := State.rot x *v (Input.acc inp -^ State.ba x) +^ State.g x in
  (State.mk (State.rot x) (State.pos x +^ State.vel x ^* dt) (State.vel x +^ a ^* dt)
            (State.bg x) (State.ba x) (State.g x) (State.rot_ext x) (State.pos_ext x),
   xP.2).

Definition reference : Externals :=
  {| kf_predict := dead_reckoning;
     initG := initG_spec (q 981 100);
     so3_exp := fun _ => midentity;
     from_two_vectors := fun _ _ => midentity;
     normalized := fun v => v;
     default_input := Input.mk vzero vzero |}.

Module Sample.

(** A sample of an unaccelerated level platform: specific force [+g]
    along z, no rotation. *)
Definition imu (t : Qc) : IMUData.t := IMUData.mk (Vec3 0 0 (q 981 100)) vzero t.

Definition config (imu_init_num : nat) : Config.t :=
  Config.mk (q 1 100) (q 1 100) (q 1 10000) (q 1 10000) imu_init_num false midentity vzero.

(** Moving along x at 1 m/s, level, gravity down. *)
Definition state : State.t :=
  State.mk midentity vzero (Vec3 1 0 0) vzero vzero (Vec3 0 0 (- q 981 100)) midentity vzero.

Definition kf : IESKF.t := IESKF.mk state setIdentity [].

(** An initialized processor anchored at the sample of time [t0], with
    everything before [t_end] already processed. *)
Definition processor (t0 t_end : Qc) : IMUProcessor.t :=
  IMUProcessor.mk (config 2) kf setIdentity vzero vzero [] [] (imu t0) t_end true.

(** A processor as constructed, with the given initialization threshold. *)
Definition fresh (imu_init_num : nat) : IMUProcessor.t :=
  new (config imu_init_num) kf (imu 0) 0.

(** A sample reading [(0, 0, -9.81)] with no rotation. *)
Definition falling : IMUData.t := IMUData.mk (Vec3 0 0 (- q 981 100)) vzero 0.

(** A quarter turn about z, and a processor as constructed on an
    estimator whose attitude is that turn. *)
Definition quarter_turn : M3D := Mat3 (Vec3 0 (- 1) 0) (Vec3 1 0 0) (Vec3 0 0 1).

Definition fresh_turned (imu_init_num : nat) : IMUProcessor.t :=
  new (config imu_init_num) (IESKF.mk (set_rot quarter_turn state) setIdentity [])
      (imu 0) 0.

Definition point (x y z curvature : Qc) : PointType.t := PointType.mk x y z curvature.

(** A 12 ms scan of three points given out of order, with three samples. *)
Definition scan3 : SyncPackage.t :=
  SyncPackage.mk [imu (q 4 1000); imu (q 8 1000); imu (q 12 1000)]
                 [point (q 1 1) 0 0 (q 10 1); point (q 2 1) 0 0 0; point (q 3 1) 0 0 (q 5 1)]
                 0 (q 12 1000).

(** A scan of one point at 15 ms, with samples at 10 ms and 20 ms. *)
Definition scan1 : SyncPackage.t :=
  SyncPackage.mk [imu (q 10 1000); imu (q 20 1000)] [point (q 1 1) 0 0 (q 15 1)] 0 (q 20 1000).

(** A scan without points, with one sample. *)
Definition scan0 : SyncPackage.t :=
  SyncPackage.mk [imu (q 10 1000)] [] 0 (q 10 1000).

(** A scan from 2.5 s to 3 s with samples at 2.25 s and 3 s, for a
    processor anchored at 2 s. *)
Definition late_scan : SyncPackage.t :=
  SyncPackage.mk [imu (q 9 4); imu (q 3 1)] [point (q 1 1) 0 0 0] (q 5 2) (q 3 1).

(** The scan that follows [scan3]: 12 ms to 24 ms, three samples. *)
Definition scan3_next : SyncPackage.t :=
  SyncPackage.mk [imu (q 16 1000); imu (q 20 1000); imu (q 24 1000)]
                 [point (q 1 1) 0 0 (q 6 1)] (q 12 1000) (q 24 1000).

(** A 10 ms scan of one point that comes without any sample. *)
Definition quiet_scan : SyncPackage.t :=
  SyncPackage.mk [] [point (q 1 1) 0 0 (q 5 1)] 0 (q 10 1000).

(** A pose-cache entry and an end pose of a platform at rest. *)
Definition rest_pose : Pose.t := Pose.mk 0 vzero vzero vzero vzero midentity.

Definition rest_end : EndPose := MkEndPose midentity vzero midentity vzero.

End Sample.

(** * Properties *)

(** ** Scalars and vectors *)

(** Closes an equation between closed scalars by evaluation. *)
Ltac qc_eval := apply Qc_is_canon; reflexivity.

Lemma half_is_div2 (a : Qc) : q 1 2 * a = a / q 2 1.
Proof.
  unfold Qcdiv. rewrite Qcmult_comm.
  replace (/ q 2 1) with (q 1 2) by qc_eval. reflexivity.
Qed.

Lemma vmuls_smul (v : V3D) (s : Qc) : v ^* s = s *^ v.
Proof. unfold vmuls, smul. f_equal; ring. Qed.

Lemma smul_half_sq (a : V3D) (dt : Qc) : q 1 2 *^ a ^* dt ^* dt = (q 1 2 * (dt * dt)) *^ a.
Proof. unfold vmuls, smul; simpl. f_equal; ring. Qed.

Lemma smul_half_mean (a b : V3D) : q 1 2 *^ (a +^ b) = mean2 a b.
Proof. unfold mean2, smul, vdivs. f_equal; apply half_is_div2. Qed.

Lemma qmax_ge_l (a b : Qc) : a <= qmax a b.
Proof.
  unfold qmax. case_bool_decide; [by apply Qclt_le_weak | apply Qcle_refl].
Qed.

Lemma qmax_ge_r (a b : Qc) : b <= qmax a b.
Proof.
  unfold qmax. case_bool_decide; [apply Qcle_refl | by apply Qcnot_lt_le].
Qed.

Lemma qmax_cases (a b : Qc) : qmax a b = a \/ qmax a b = b.
Proof. unfold qmax. case_bool_decide; auto. Qed.

Lemma Qc_sub_nonneg (a b : Qc) : b <= a -> 0 <= a - b.
Proof.
  intros H. apply (Qcplus_le_mono_r _ _ b).
  replace (a - b + b) with a by ring. by rewrite Qcplus_0_l.
Qed.

Lemma Qc_sub_le_mono (a b c : Qc) : a <= b -> a - c <= b - c.
Proof. intros H. unfold Qcminus. by apply Qcplus_le_mono_r. Qed.

(** ** Propagation *)

Section Propagation.

Context {ext : Externals}.

Lemma imu_step_skip m_Q last_end start s ht :
  ~ integrated last_end ht -> imu_step m_Q last_end start s ht = s.
Proof.
  intros H. unfold imu_step. rewrite bool_decide_true; [done|].
  by apply Qcnot_le_lt.
Qed.

Lemma imu_step_advance m_Q last_end start s ht :
  integrated last_end ht -> imu_step m_Q last_end start s ht = advance m_Q last_end start s ht.
Proof.
  intros H. unfold imu_step. rewrite bool_decide_false by by apply Qcle_not_lt.
  unfold advance, midpoint, step_dt, qmax. cbn [Input.acc Input.gyro].
  rewrite !smul_half_mean.
  by destruct (bool_decide (IMUData.timestamp ht.1 < last_end)).
Qed.

Lemma foldl_imu_step m_Q last_end start pairs : forall s,
  foldl (imu_step m_Q last_end start) s pairs
  = foldl (advance m_Q last_end start) s (filter (integrated last_end) pairs).
Proof.
  induction pairs as [|ht pairs IH]; intros s; [done|].
  rewrite filter_cons. cbn [foldl]. destruct (decide (integrated last_end ht)) as [H|H].
  - rewrite imu_step_advance by done. apply IH.
  - rewrite imu_step_skip by done. apply IH.
Qed.

Lemma foldl_advance_calls m_Q last_end start pairs : forall s,
  IESKF.calls (l_kf (foldl (advance m_Q last_end start) s pairs))
  = IESKF.calls (l_kf s) ++ (prediction last_end <$> pairs).
Proof.
  induction pairs as [|ht pairs IH]; intros s; cbn [foldl fmap list_fmap].
  - by rewrite app_nil_r.
  - rewrite IH. cbn. by rewrite <- app_assoc.
Qed.

Lemma foldl_advance_inp m_Q last_end start pairs : forall s,
  l_inp (foldl (advance m_Q last_end start) s pairs)
  = default (l_inp s) (midpoint <$> last pairs).
Proof.
  induction pairs as [|ht pairs IH]; intros s; [done|].
  cbn [foldl]. rewrite IH. rewrite last_cons.
  by destruct (last pairs).
Qed.

Lemma foldl_advance_poses m_Q last_end start pairs : forall s,
  exists added,
    l_poses (foldl (advance m_Q last_end start) s pairs) = l_poses s ++ added
    /\ Pose.offset <$> added = (fun ht => IMUData.timestamp ht.2 - start) <$> pairs.
Proof.
  induction pairs as [|ht pairs IH]; intros s; cbn [foldl].
  - exists []. by rewrite app_nil_r.
  - destruct (IH (advance m_Q last_end start s ht)) as (added & -> & Hoff).
    eexists (_ :: added). split.
    + cbn. rewrite <- app_assoc. reflexivity.
    + cbn. by rewrite Hoff.
Qed.

(** The prediction calls of one propagation, in order: one per
    integrated pair, then the trailing one. *)
Lemma propagate_calls self package :
  IESKF.calls (IMUProcessor.m_kf (propagate self package))
  = IESKF.calls (IMUProcessor.m_kf self)
    ++ (prediction (IMUProcessor.m_last_end_time self) <$> steps self package)
    ++ [(trailing_input self package, trailing_dt self package)].
Proof.
  unfold propagate. cbn [IMUProcessor.m_kf predict IESKF.calls].
  rewrite foldl_imu_step, foldl_advance_calls, foldl_advance_inp.
  cbn [l_kf l_inp]. by rewrite <- app_assoc.
Qed.

(** The pose cache after one propagation: the seed, then one entry per
    integrated pair. *)
Lemma propagate_poses self package :
  exists added,
    IMUProcessor.m_imu_poses_cache (propagate self package)
    = pose_of 0 (IMUProcessor.m_last_acc self) (IMUProcessor.m_last_gyro self)
              (IESKF.x (IMUProcessor.m_kf self)) :: added
    /\ Pose.offset <$> added
       = (fun ht => IMUData.timestamp ht.2 - SyncPackage.cloud_start_time package)
           <$> steps self package.
Proof.
  unfold propagate. cbn [IMUProcessor.m_imu_poses_cache].
  rewrite foldl_imu_step.
  edestruct foldl_advance_poses as (added & -> & Hoff).
  exists added. split; [done|]. exact Hoff.
Qed.

Lemma Sorted_adjacent {A B} (R : relation B) (f : A -> B) (l : list A) :
  Sorted R (f <$> l) -> Forall (fun ab => R (f ab.1) (f ab.2)) (adjacent l).
Proof.
  induction l as [|a [|b l] IH]; intros Hs; cbn; [done..|].
  cbn in Hs. apply Sorted_inv in Hs as [Hs Hhd].
  constructor; [by apply HdRel_inv in Hhd | by apply IH].
Qed.

Lemma adjacent_elem_of {A} (l : list A) (a b : A) :
  (a, b) ∈ adjacent l -> a ∈ l /\ b ∈ tail l.
Proof.
  induction l as [|x [|y l] IH]; cbn; [by intros ?%elem_of_nil..|].
  intros [[= -> ->]|Hin]%elem_of_cons.
  - split; left.
  - destruct (IH Hin) as [Ha Hb]. split; by right.
Qed.

Lemma adjacent_tails_sorted {A B} (R : relation B) (f : A -> B)
    (P : A * A -> Prop) `{!forall ab, Decision (P ab)} (l : list A) :
  StronglySorted R (f <$> l) ->
  StronglySorted R ((fun ab => f ab.2) <$> filter P (adjacent l)).
Proof.
  induction l as [|a [|b l] IH]; [constructor..|].
  change (adjacent (a :: b :: l)) with ((a, b) :: adjacent (b :: l)).
  rewrite fmap_cons.
  intros [Ha Hs]%StronglySorted_cons. specialize (IH Hs).
  rewrite filter_cons. destruct (decide (P (a, b))); [|done].
  rewrite fmap_cons. constructor; [done|].
  apply StronglySorted_cons in Hs as [Hb _].
  apply Forall_fmap, Forall_forall. intros [c d] Hin.
  apply list_elem_of_filter in Hin as [_ Hin].
  apply adjacent_elem_of in Hin as [_ Hd]. cbn in *.
  rewrite Forall_forall in Hb. apply Hb. by apply list_elem_of_fmap_2.
Qed.

(** The offsets of the pose cache in terms of the integrated pairs. *)
Lemma propagate_offsets self package :
  Pose.offset <$> IMUProcessor.m_imu_poses_cache (propagate self package)
  = 0 :: ((fun ht => IMUData.timestamp ht.2 - SyncPackage.cloud_start_time package)
            <$> steps self package).
Proof.
  destruct (propagate_poses self package) as (added & -> & Hoff).
  cbn. by rewrite Hoff.
Qed.

Lemma propagate_offsets_sorted self package :
  Sorted Qcle (IMUData.timestamp <$> window self package) ->
  Forall (fun ht => SyncPackage.cloud_start_time package <= IMUData.timestamp ht.2)
         (steps self package) ->
  Sorted Qcle (Pose.offset <$> IMUProcessor.m_imu_poses_cache (propagate self package)).
Proof.
  intros Hw Hstart. rewrite propagate_offsets.
  apply StronglySorted_Sorted, SSorted_cons.
  - change (fun ht : IMUData.t * IMUData.t =>
              IMUData.timestamp ht.2 - SyncPackage.cloud_start_time package)
      with ((fun t => t - SyncPackage.cloud_start_time package)
              ∘ (fun ht : IMUData.t * IMUData.t => IMUData.timestamp ht.2)).
    rewrite list_fmap_compose.
    apply (StronglySorted_fmap _ Qcle); [intros a b; apply Qc_sub_le_mono|].
    apply adjacent_tails_sorted.
    apply Sorted_StronglySorted; [|done]. intros a b c. apply Qcle_trans.
  - apply Forall_fmap. eapply Forall_impl; [exact Hstart|].
    intros ht Hle. cbn. by apply Qc_sub_nonneg.
Qed.

End Propagation.

(** ** Initialization *)

Lemma double_of_size_0 : double_of_size 0 = 0.
Proof. qc_eval. Qed.

Lemma double_of_size_S (n : nat) : double_of_size (S n) = 1 + double_of_size n.
Proof.
  unfold double_of_size. rewrite Nat2Z.inj_succ, <- Z.add_1_l.
  by rewrite Z2Qc_inj_add, Z2Qc_inj_1.
Qed.

Lemma double_of_size_nonzero (n : nat) : n <> 0%nat -> double_of_size n <> 0.
Proof.
  intros Hn H. unfold double_of_size in H.
  rewrite <- Z2Qc_inj_0 in H. apply Z2Qc_inj in H. lia.
Qed.

(** The sums of a buffer of identical samples. *)
Lemma foldl_sum_step_constant (a w : V3D) (buffer : list IMUData.t) : forall s,
  Forall (fun imu => IMUData.acc imu = a /\ IMUData.gyro imu = w) buffer ->
  foldl sum_step s buffer
  = (s.1 +^ double_of_size (length buffer) *^ a,
     s.2 +^ double_of_size (length buffer) *^ w).
Proof.
  induction buffer as [|imu buffer IH]; intros [sa sw] Hall; cbn [foldl length].
  - rewrite double_of_size_0. unfold vadd, smul; cbn.
    destruct sa, sw; cbn. f_equal; f_equal; ring.
  - apply Forall_cons in Hall as [[Ha Hw] Hall].
    rewrite IH by done. rewrite double_of_size_S. unfold sum_step; cbn.
    rewrite Ha, Hw. unfold vadd, smul; cbn. f_equal; f_equal; ring.
Qed.

(** The means of a non-empty buffer of identical samples. *)
Lemma sample_means_constant (a w : V3D) (buffer : list IMUData.t) :
  buffer <> [] ->
  Forall (fun imu => IMUData.acc imu = a /\ IMUData.gyro imu = w) buffer ->
  sample_means buffer = (a, w).
Proof.
  intros Hne Hall. unfold sample_means.
  rewrite (foldl_sum_step_constant a w) by done.
  assert (double_of_size (length buffer) <> 0) as Hn.
  { apply double_of_size_nonzero. by destruct buffer. }
  destruct a, w. unfold vdivs, vadd, smul, vzero; cbn.
  f_equal; f_equal; by field.
Qed.

Lemma back_nonempty {A} (v : list A) : v <> [] -> exists a, back v = Ok a.
Proof.
  intros Hne. unfold back.
  destruct (last v) eqn:Hl; [by eexists|]. by apply last_None in Hl.
Qed.

Section Initialization.

Context {ext : Externals}.

Lemma initialize_not_ready self imus :
  (length (IMUProcessor.m_imu_cache self ++ imus)
   < Config.imu_init_num (IMUProcessor.m_config self))%nat ->
  initialize self imus = Ok (false, set_imu_cache (IMUProcessor.m_imu_cache self ++ imus) self).
Proof.
  intros H. unfold initialize. by rewrite bool_decide_true.
Qed.

Lemma initialize_ready self imus :
  (Config.imu_init_num (IMUProcessor.m_config self)
   <= length (IMUProcessor.m_imu_cache self ++ imus))%nat ->
  IMUProcessor.m_imu_cache self ++ imus <> [] ->
  exists self',
    initialize self imus = Ok (true, self')
    /\ IESKF.x (IMUProcessor.m_kf self')
       = seed_state (IMUProcessor.m_config self)
                    (sample_means (IMUProcessor.m_imu_cache self ++ imus)).1
                    (sample_means (IMUProcessor.m_imu_cache self ++ imus)).2
                    (IESKF.x (IMUProcessor.m_kf self))
    /\ IESKF.P (IMUProcessor.m_kf self') = init_P.
Proof.
  intros Hn Hne. unfold initialize.
  rewrite bool_decide_false by (cbn; lia).
  destruct (back_nonempty _ Hne) as [a ->]. cbn.
  eexists. split; [reflexivity|]. by split.
Qed.

Lemma initialize_empty self imus :
  (Config.imu_init_num (IMUProcessor.m_config self)
   <= length (IMUProcessor.m_imu_cache self ++ imus))%nat ->
  IMUProcessor.m_imu_cache self ++ imus = [] ->
  initialize self imus = OutOfBounds.
Proof.
  intros Hn He. unfold initialize.
  rewrite bool_decide_false by (cbn; lia). by rewrite He.
Qed.

End Initialization.

(** ** Compensation *)

Section Compensation.

Context {ext : Externals}.

(** The source's expression is the specification's formula. *)
Lemma compensate_deskewed x head tail p :
  compensate (end_pose x) head tail p
  = deskewed (State.rot x) (State.pos x) (State.rot_ext x) (State.pos_ext x) head tail p.
Proof.
  unfold compensate, deskewed, extrapolated_rotation, extrapolated_position, seconds.
  cbn [end_pose cur_rot cur_pos cur_rot_ext cur_pos_ext].
  by rewrite smul_half_sq, !vmuls_smul.
Qed.

Lemma insert_alter_lookup {A} (f : A -> A) (l : list A) i a :
  l !! i = Some a -> <[i := f a]> l = alter f i l.
Proof.
  intros H. rewrite list_insert_alter. apply list_alter_ext; [|done].
  intros b Hb. congruence.
Qed.

Lemma replay_app x vs1 vs2 points :
  replay x (vs1 ++ vs2) points = replay x vs2 (replay x vs1 points).
Proof. apply foldl_app. Qed.

Lemma replay_curvature x vs : forall points,
  PointType.curvature <$> replay x vs points = PointType.curvature <$> points.
Proof.
  induction vs as [|v vs IH]; intros points; [done|].
  unfold replay in *. cbn [foldl]. rewrite IH.
  rewrite (list_fmap_alter _ _ id); [by apply list_alter_id|].
  by apply Forall_forall.
Qed.

Lemma replay_length x vs points : length (replay x vs points) = length points.
Proof.
  rewrite <- (length_fmap PointType.curvature), replay_curvature.
  apply length_fmap.
Qed.

Lemma walk_trace x head tail : forall it points trace points' it' trace',
  walk (end_pose x) head tail points it trace = Ok (points', it', trace') ->
  exists vs,
    trace' = trace ++ vs
    /\ points' = replay x vs points
    /\ (it' <= it)%nat
    /\ Forall (fun v => v_head v = head /\ v_tail v = tail
                        /\ consumed (PointType.curvature <$> points) v) vs.
Proof.
  induction it as [|it IH]; intros points trace points' it' trace' H; cbn [walk] in H.
  - destruct (points !! 0%nat) as [p|] eqn:Hp; [|done].
    case_bool_decide as Hlt; injection H as <- <- <-.
    + exists [MkVisit 0 head tail]. split_and!; [done| |done|].
      * cbn. rewrite compensate_deskewed. by apply insert_alter_lookup.
      * repeat constructor. exists (PointType.curvature p).
        by rewrite list_lookup_fmap; cbn; rewrite Hp.
    + exists []. by rewrite app_nil_r.
  - destruct (points !! S it) as [p|] eqn:Hp; [|done].
    case_bool_decide as Hlt.
    + apply IH in H as (vs & -> & -> & Hle & Hall).
      exists (MkVisit (S it) head tail :: vs). split_and!.
      * by rewrite <- app_assoc.
      * cbn. rewrite compensate_deskewed. by erewrite insert_alter_lookup.
      * lia.
      * rewrite list_fmap_insert, list_insert_id in Hall
          by (by rewrite list_lookup_fmap, Hp).
        constructor; [|done]. split_and!; [done..|].
        exists (PointType.curvature p). by rewrite list_lookup_fmap; cbn; rewrite Hp.
    + injection H as <- <- <-. exists []. by rewrite app_nil_r.
Qed.

Lemma inner_loop_trace x head tail points it trace points' it' trace' :
  inner_loop (end_pose x) head tail points it trace = Ok (points', it', trace') ->
  exists vs,
    trace' = trace ++ vs
    /\ points' = replay x vs points
    /\ Forall (fun v => v_head v = head /\ v_tail v = tail
                        /\ consumed (PointType.curvature <$> points) v) vs.
Proof.
  unfold inner_loop. case_bool_decide; [done|].
  destruct (walk _ _ _ _ _ _) as [[[ps n] tr]|] eqn:Hw; [|done].
  cbn. intros [= <- <- <-].
  apply walk_trace in Hw as (vs & -> & -> & _ & Hall). by exists vs.
Qed.

Lemma outer_loop_trace x : forall intervals points it trace points' trace',
  outer_loop (end_pose x) intervals points it trace = Ok (points', trace') ->
  exists vs,
    trace' = trace ++ vs
    /\ points' = replay x vs points
    /\ Forall (fun v => (v_head v, v_tail v) ∈ intervals
                        /\ consumed (PointType.curvature <$> points) v) vs.
Proof.
  induction intervals as [|[head tail] rest IH]; intros points it trace points' trace' H;
    cbn [outer_loop] in H.
  - injection H as <- <-. exists []. by rewrite app_nil_r.
  - destruct (inner_loop _ _ _ _ _ _) as [[[ps n] tr]|] eqn:Hi; [|done].
    cbn in H. apply inner_loop_trace in Hi as (vs1 & -> & -> & Hall1).
    apply IH in H as (vs2 & -> & -> & Hall2).
    exists (vs1 ++ vs2). split_and!.
    + by rewrite app_assoc.
    + by rewrite replay_app.
    + rewrite replay_curvature in Hall2. apply Forall_app. split.
      * eapply Forall_impl; [exact Hall1|]. intros v (-> & -> & Hc).
        split; [left | done].
      * eapply Forall_impl; [exact Hall2|]. intros v (Hin & Hc).
        split; [by right | done].
Qed.

Lemma deskew_trace x poses points points' trace :
  deskew (end_pose x) poses points = Ok (points', trace) ->
  points' = replay x trace points
  /\ Forall (fun v => (v_head v, v_tail v) ∈ adjacent poses
                      /\ consumed (PointType.curvature <$> points) v) trace.
Proof.
  unfold deskew. intros H.
  apply outer_loop_trace in H as (vs & -> & -> & Hall). split; [done|].
  eapply Forall_impl; [exact Hall|]. intros v (Hin & Hc).
  split; [by apply elem_of_reverse | done].
Qed.

Lemma replay_lookup_unvisited x (i : nat) vs : forall points,
  i ∉ (v_index <$> vs) -> replay x vs points !! i = points !! i.
Proof.
  induction vs as [|v vs IH]; intros points Hi; [done|].
  rewrite fmap_cons in Hi. apply not_elem_of_cons in Hi as [Hne Hi].
  unfold replay in *. cbn [foldl]. rewrite IH by done.
  by apply list_lookup_alter_ne.
Qed.

(** In a pose cache whose offsets ascend, a point consumed in some
    interval lies strictly after the offset of the first entry. *)
Lemma consumed_after_first e0 rest curvatures v :
  Sorted Qcle (Pose.offset <$> e0 :: rest) ->
  (v_head v, v_tail v) ∈ adjacent (e0 :: rest) ->
  consumed curvatures v ->
  exists c, curvatures !! v_index v = Some c /\ Pose.offset e0 < c / q 1000 1.
Proof.
  intros Hs Hin (c & Hc & Hlt). exists c. split; [done|].
  eapply Qcle_lt_trans; [|exact Hlt].
  apply Sorted_StronglySorted in Hs; [|intros x y z; apply Qcle_trans].
  rewrite fmap_cons in Hs. apply StronglySorted_cons in Hs as [Hall _].
  apply adjacent_elem_of in Hin as [Hhead _]. cbn in Hhead.
  apply elem_of_cons in Hhead as [->|Hhead]; [apply Qcle_refl|].
  rewrite Forall_forall in Hall. apply Hall. by apply list_elem_of_fmap_2.
Qed.

(** The inner loop stops, without consuming, at a point whose offset
    does not exceed the head's. *)
Lemma walk_stops cur head tail points it trace p :
  points !! it = Some p ->
  ~ Pose.offset head < seconds p ->
  walk cur head tail points it trace = Ok (points, it, trace).
Proof.
  unfold seconds. intros Hp Hnlt.
  destruct it; cbn [walk]; rewrite Hp; by rewrite bool_decide_false.
Qed.

(** The inner loop ends at the first point once it has consumed it,
    with the cursor left on that point. *)
Lemma walk_ends_at_first cur head tail points trace p :
  points !! 0%nat = Some p ->
  Pose.offset head < seconds p ->
  walk cur head tail points 0 trace
  = Ok (<[0%nat := compensate cur head tail p]> points, 0%nat,
        trace ++ [MkVisit 0 head tail]).
Proof.
  unfold seconds. intros Hp Hlt. cbn [walk]. rewrite Hp. by rewrite bool_decide_true.
Qed.

(** A scan of one point that lies after the heads of two consecutive
    intervals is compensated in both. *)
Lemma deskew_single_point_twice cur e0 e1 e2 p :
  Pose.offset e1 < seconds p ->
  Pose.offset e0 < seconds p ->
  deskew cur [e0; e1; e2] [p]
  = Ok ([compensate cur e0 e1 (compensate cur e1 e2 p)],
        [MkVisit 0 e1 e2; MkVisit 0 e0 e1]).
Proof.
  intros H1 H0.
  unfold deskew. cbn [adjacent reverse rev_append length outer_loop].
  change (Z.of_nat 1 - 1)%Z with 0%Z.
  unfold inner_loop. rewrite (bool_decide_false (0 < 0)%Z) by lia.
  change (Z.to_nat 0) with 0%nat.
  rewrite (walk_ends_at_first cur e1 e2 [p] [] p) by done.
  cbn [bind fst snd Z.of_nat insert list_insert app].
  rewrite (bool_decide_false (0 < 0)%Z) by lia.
  change (Z.to_nat 0) with 0%nat.
  rewrite (walk_ends_at_first cur e0 e1 _ _ (compensate cur e1 e2 p)) by done.
  reflexivity.
Qed.

End Compensation.

(** ** Sorting *)

Lemma curvature_le_total : Total curvature_le.
Proof. intros p1 p2. unfold curvature_le. apply Qc_le_total. Qed.

Lemma std_sort_Sorted points : Sorted curvature_le (std_sort points).
Proof. apply Sorted_merge_sort, curvature_le_total. Qed.

Lemma std_sort_Permutation points : std_sort points ≡ₚ points.
Proof. apply merge_sort_Permutation. Qed.

Lemma Sorted_curvatures points :
  Sorted curvature_le points <-> Sorted Qcle (PointType.curvature <$> points).
Proof.
  split.
  - by apply Sorted_fmap.
  - induction points as [|p points IH]; [constructor|].
    rewrite fmap_cons. intros [Hs Hhd]%Sorted_inv.
    constructor; [by apply IH|].
    destruct points; constructor. by apply HdRel_inv in Hhd.
Qed.

(** The sorted sequence of offsets depends on the points given, not on
    the order they are given in. *)
Lemma std_sort_curvatures_unique points1 points2 :
  points1 ≡ₚ points2 ->
  PointType.curvature <$> std_sort points1 = PointType.curvature <$> std_sort points2.
Proof.
  intros Hp. apply (Sorted_unique Qcle); try apply _.
  - apply Sorted_curvatures, std_sort_Sorted.
  - apply Sorted_curvatures, std_sort_Sorted.
  - by rewrite !std_sort_Permutation, Hp.
Qed.

(** ** Bounds *)

Section Bounds.

Context {ext : Externals}.

Lemma walk_total cur head tail : forall it points trace,
  (it < length points)%nat ->
  exists points' it' trace',
    walk cur head tail points it trace = Ok (points', it', trace')
    /\ (it' <= it)%nat /\ length points' = length points.
Proof.
  induction it as [|it IH]; intros points trace Hlt; cbn [walk].
  - destruct (lookup_lt_is_Some_2 points 0%nat Hlt) as [p ->].
    case_bool_decide; eexists _, _, _; split_and!; try done.
    by rewrite length_insert.
  - destruct (lookup_lt_is_Some_2 points (S it) Hlt) as [p ->].
    case_bool_decide.
    + edestruct (IH (<[S it := compensate cur head tail p]> points)) as (ps & n & tr & -> & Hn & Hl).
      { rewrite length_insert. lia. }
      eexists _, _, _; split_and!; [done|lia|].
      by rewrite Hl, length_insert.
    + by eexists _, _, _.
Qed.

Lemma inner_loop_total cur head tail points it trace :
  (0 <= it < Z.of_nat (length points))%Z ->
  exists points' it' trace',
    inner_loop cur head tail points it trace = Ok (points', it', trace')
    /\ (0 <= it' <= it)%Z /\ length points' = length points.
Proof.
  intros Hit. unfold inner_loop. rewrite bool_decide_false by lia.
  edestruct (walk_total cur head tail (Z.to_nat it) points trace)
    as (ps & n & tr & -> & Hn & Hl); [lia|].
  cbn. eexists _, _, _; split_and!; [done|lia|lia|done].
Qed.

Lemma outer_loop_total cur : forall intervals points it trace,
  (0 <= it < Z.of_nat (length points))%Z ->
  exists r, outer_loop cur intervals points it trace = Ok r.
Proof.
  induction intervals as [|[head tail] rest IH]; intros points it trace Hit; cbn [outer_loop].
  - by eexists.
  - edestruct (inner_loop_total cur head tail points it trace)
      as (ps & n & tr & -> & Hn & Hl); [done|].
    cbn. apply IH. lia.
Qed.

Lemma outer_loop_before_begin cur intervals points it trace :
  (it < 0)%Z -> intervals <> [] ->
  outer_loop cur intervals points it trace = OutOfBounds.
Proof.
  intros Hit Hne. destruct intervals as [|[head tail] rest]; [done|].
  cbn [outer_loop]. unfold inner_loop. by rewrite bool_decide_true.
Qed.

(** The deskew pass reads outside the scan exactly when the scan is
    empty and the pose cache has an interval. *)
Lemma deskew_out_of_bounds cur poses points :
  deskew cur poses points = OutOfBounds <-> points = [] /\ adjacent poses <> [].
Proof.
  unfold deskew. split.
  - intros H. destruct points as [|p points].
    + split; [done|]. intros Hadj. by rewrite Hadj in H.
    + edestruct (outer_loop_total cur (reverse (adjacent poses)) (p :: points)
                   (Z.of_nat (length (p :: points)) - 1) []) as [r Hr].
      { cbn [length]. lia. }
      congruence.
  - intros [-> Hadj]. apply outer_loop_before_begin; [done|].
    intros Hrev. apply Hadj. apply (f_equal reverse) in Hrev.
    by rewrite reverse_involutive in Hrev.
Qed.

Lemma std_sort_nil points : std_sort points = [] <-> points = [].
Proof.
  unfold std_sort. split.
  - intros H. apply Permutation_nil_r. rewrite <- H.
    by rewrite merge_sort_Permutation.
  - by intros ->.
Qed.

Lemma propagate_intervals self package :
  adjacent (IMUProcessor.m_imu_poses_cache (propagate self package)) = []
  <-> steps self package = [].
Proof.
  destruct (propagate_poses self package) as (added & -> & Hoff).
  apply (f_equal length) in Hoff. rewrite !length_fmap in Hoff.
  destruct added, (steps self package); cbn in *; split; intros; congruence.
Qed.

(** [undistort] reads outside the scan exactly when the scan is empty
    and at least one pair of samples is integrated. *)
Lemma undistort_out_of_bounds self package :
  undistort self package = OutOfBounds
  <-> SyncPackage.cloud package = [] /\ steps self package <> [].
Proof.
  unfold undistort.
  destruct (deskew _ _ _) as [r|] eqn:Hd; cbn.
  - split; [done|]. intros [Hc Hs].
    assert (deskew (end_pose (IESKF.x (IMUProcessor.m_kf (propagate self package))))
              (IMUProcessor.m_imu_poses_cache (propagate self package))
              (std_sort (SyncPackage.cloud package)) = OutOfBounds) as Hf; [|congruence].
    apply deskew_out_of_bounds. split; [by apply std_sort_nil|].
    by rewrite propagate_intervals.
  - apply deskew_out_of_bounds in Hd as [Hc Hs].
    split; [intros _|done].
    split; [by apply std_sort_nil|].
    intros Hs'. apply Hs. by apply propagate_intervals.
Qed.

(** The processor [undistort] returns is the propagated one. *)
Lemma undistort_processor self package self' package' trace :
  undistort self package = Ok (self', package', trace) -> self' = propagate self package.
Proof.
  unfold undistort. destruct (deskew _ _ _); [|done]. by intros [= <- _ _].
Qed.

End Bounds.

(** * The specification's claims *)

Section Claims.

Context {ext : Externals}.

(** C2.  The predictions issued by one propagation are, in order, one
    per consecutive pair (head, tail) of the working window with
    [tail.timestamp >= lastProcessedEndTime] (the other pairs issue
    none), each with the arithmetic mean of the two samples as input and
    [dt = tail.timestamp - max(head.timestamp, lastProcessedEndTime)],
    followed by the single trailing prediction. *)
Theorem propagate_predicts_integrated_pairs self package :
  IESKF.calls (IMUProcessor.m_kf (propagate self package))
  = IESKF.calls (IMUProcessor.m_kf self)
    ++ ((fun ht =>
           (Input.mk (mean2 (IMUData.acc ht.1) (IMUData.acc ht.2))
                     (mean2 (IMUData.gyro ht.1) (IMUData.gyro ht.2)),
            IMUData.timestamp ht.2
            - qmax (IMUData.timestamp ht.1) (IMUProcessor.m_last_end_time self)))
          <$> filter (fun ht => IMUProcessor.m_last_end_time self <= IMUData.timestamp ht.2)
                     (adjacent (IMUProcessor.m_last_imu self :: SyncPackage.imus package)))
    ++ [(trailing_input self package, trailing_dt self package)].
Proof.
  rewrite propagate_calls. reflexivity.
Qed.

(** C5.  When the window's timestamps are strictly increasing and the
    scan ends no earlier than the window's last sample, every [dt] that
    one propagation passes to the estimator's prediction is nonnegative:
    those of the per-pair loop and that of the trailing prediction. *)
Theorem predict_dt_nonnegative self package :
  Sorted Qclt (IMUData.timestamp <$> window self package) ->
  IMUData.timestamp (List.last (SyncPackage.imus package) (IMUProcessor.m_last_imu self))
    <= SyncPackage.cloud_end_time package ->
  Forall (fun call => 0 <= call.2)
         (drop (length (IESKF.calls (IMUProcessor.m_kf self)))
               (IESKF.calls (IMUProcessor.m_kf (propagate self package)))).
Proof.
  intros Hsorted Hend. rewrite propagate_calls, drop_app_length.
  apply Forall_app. split.
  - apply Forall_fmap, Forall_forall. intros ht Hin.
    apply list_elem_of_filter in Hin as [Hint Hin]. cbn. unfold step_dt.
    apply Qc_sub_nonneg.
    destruct (qmax_cases (IMUData.timestamp ht.1) (IMUProcessor.m_last_end_time self))
      as [-> | ->]; [|exact Hint].
    apply Qclt_le_weak.
    apply (Sorted_adjacent Qclt IMUData.timestamp) in Hsorted.
    by apply (proj1 (Forall_forall _ _) Hsorted).
  - repeat constructor. cbn. unfold trailing_dt. by apply Qc_sub_nonneg.
Qed.

(** C6 (amended).  After every propagation the pose cache is non-empty;
    its first entry has offset 0 and carries the corrected measurements
    and the estimator's velocity, position and rotation as the call
    found them; after it comes exactly one entry per integrated pair, in
    order, with offset [tail.timestamp - scan start time]; the trailing
    prediction adds none.  The offsets ascend provided the window's
    timestamps are non-decreasing and no integrated pair ends before the
    scan start. *)
Theorem pose_cache_after_propagate self package :
  head (IMUProcessor.m_imu_poses_cache (propagate self package))
  = Some (pose_of 0 (IMUProcessor.m_last_acc self) (IMUProcessor.m_last_gyro self)
                  (IESKF.x (IMUProcessor.m_kf self)))
  /\ Pose.offset <$> tail (IMUProcessor.m_imu_poses_cache (propagate self package))
     = (fun ht => IMUData.timestamp ht.2 - SyncPackage.cloud_start_time package)
         <$> filter (integrated (IMUProcessor.m_last_end_time self))
                    (adjacent (window self package))
  /\ length (IMUProcessor.m_imu_poses_cache (propagate self package))
     = S (length (steps self package))
  /\ (Sorted Qcle (IMUData.timestamp <$> window self package) ->
      Forall (fun ht => SyncPackage.cloud_start_time package <= IMUData.timestamp ht.2)
             (steps self package) ->
      Sorted Qcle (Pose.offset <$> IMUProcessor.m_imu_poses_cache (propagate self package))).
Proof.
  split_and!.
  - by destruct (propagate_poses self package) as (added & -> & _).
  - destruct (propagate_poses self package) as (added & -> & Hoff). exact Hoff.
  - rewrite <- (length_fmap Pose.offset), propagate_offsets. cbn.
    by rewrite length_fmap.
  - apply propagate_offsets_sorted.
Qed.

(** X14.  While the accumulated buffer is shorter than the configured
    threshold, [initialize] returns not-ready, keeps the samples and
    leaves the shared estimator as it was.  When the threshold is
    reached and the buffer is not empty it returns ready, with the mean
    state and the covariance seeded.  A call that returns, returns
    not-ready exactly when the buffer is below the threshold, and then
    the estimator is unchanged. *)
Theorem initialize_readiness self imus :
  ((length (IMUProcessor.m_imu_cache self ++ imus)
    < Config.imu_init_num (IMUProcessor.m_config self))%nat ->
   initialize self imus
   = Ok (false, set_imu_cache (IMUProcessor.m_imu_cache self ++ imus) self))
  /\ ((Config.imu_init_num (IMUProcessor.m_config self)
       <= length (IMUProcessor.m_imu_cache self ++ imus))%nat ->
      IMUProcessor.m_imu_cache self ++ imus <> [] ->
      exists self',
        initialize self imus = Ok (true, self')
        /\ IESKF.x (IMUProcessor.m_kf self')
           = seed_state (IMUProcessor.m_config self)
                        (sample_means (IMUProcessor.m_imu_cache self ++ imus)).1
                        (sample_means (IMUProcessor.m_imu_cache self ++ imus)).2
                        (IESKF.x (IMUProcessor.m_kf self))
        /\ IESKF.P (IMUProcessor.m_kf self') = init_P)
  /\ (forall ready self',
        initialize self imus = Ok (ready, self') ->
        (ready = false
         <-> (length (IMUProcessor.m_imu_cache self ++ imus)
              < Config.imu_init_num (IMUProcessor.m_config self))%nat)
        /\ (ready = false -> IMUProcessor.m_kf self' = IMUProcessor.m_kf self)).
Proof.
  split_and!.
  - apply initialize_not_ready.
  - apply initialize_ready.
  - intros ready self' H.
    destruct (decide (length (IMUProcessor.m_imu_cache self ++ imus)
                      < Config.imu_init_num (IMUProcessor.m_config self))%nat) as [Hlt|Hge].
    + rewrite initialize_not_ready in H by done. injection H as <- <-. by split.
    + destruct (decide (IMUProcessor.m_imu_cache self ++ imus = [])) as [He|Hne].
      * rewrite initialize_empty in H by (done || lia). done.
      * destruct (initialize_ready self imus) as (s & Hs & _); [lia|done|].
        rewrite Hs in H. injection H as <- <-. split; [split|]; done.
Qed.

(** C7 (the code at the failing input).  With a threshold of zero and
    no sample accumulated the size test passes, and [initialize] takes
    the last element of an empty buffer: it returns neither ready nor
    not-ready, whatever the estimator. *)
Theorem initialize_zero_threshold_empty_buffer :
  (Config.imu_init_num (IMUProcessor.m_config (Sample.fresh 0))
   <= length (IMUProcessor.m_imu_cache (Sample.fresh 0) ++ []))%nat
  /\ initialize (Sample.fresh 0) [] = OutOfBounds
  /\ ~ exists ready self', initialize (Sample.fresh 0) [] = Ok (ready, self').
Proof.
  assert (initialize (Sample.fresh 0) [] = OutOfBounds) as H
    by (apply initialize_empty; [cbn; lia | reflexivity]).
  split_and!; [cbn; lia | exact H |].
  intros (ready & self' & H'). rewrite H in H'. discriminate H'.
Qed.

(** C4 (amended).  Under the no-align policy, when every accumulated
    sample has acceleration [(0, 0, -g)] and angular velocity 0, the
    call of [initialize] that reaches the threshold with a non-empty
    buffer writes gyro bias 0 and the configured extrinsics, does not
    write the attitude, and hands [initG] the direction [(0, 0, +g)],
    the negated mean acceleration: the seeded state is what [initG]
    makes of it.  If [initG] writes gravity only, the seeded gyro bias is
    0 and the attitude is the one the estimator had.  If [initG] sets
    gravity to a positive multiple of the direction it is given, the
    seeded gravity is not [(0, 0, -g)] for any [g > 0]. *)
Theorem initialize_no_align_stationary self imus (g : Qc) :
  Config.gravity_align (IMUProcessor.m_config self) = false ->
  Forall (fun imu => IMUData.acc imu = Vec3 0 0 (- g) /\ IMUData.gyro imu = vzero)
         (IMUProcessor.m_imu_cache self ++ imus) ->
  (Config.imu_init_num (IMUProcessor.m_config self)
   <= length (IMUProcessor.m_imu_cache self ++ imus))%nat ->
  IMUProcessor.m_imu_cache self ++ imus <> [] ->
  exists self',
    initialize self imus = Ok (true, self')
    /\ IESKF.x (IMUProcessor.m_kf self')
       = initG (Vec3 0 0 g)
               (set_ext_bg (Config.r_il (IMUProcessor.m_config self))
                           (Config.p_il (IMUProcessor.m_config self)) vzero
                           (IESKF.x (IMUProcessor.m_kf self)))
    /\ ((forall dir x, initG dir x = set_g (State.g (initG dir x)) x) ->
        State.bg (IESKF.x (IMUProcessor.m_kf self')) = vzero
        /\ State.rot (IESKF.x (IMUProcessor.m_kf self'))
           = State.rot (IESKF.x (IMUProcessor.m_kf self)))
    /\ (forall k : Qc,
          0 < k -> 0 < g ->
          State.g (IESKF.x (IMUProcessor.m_kf self')) = k *^ Vec3 0 0 g ->
          State.g (IESKF.x (IMUProcessor.m_kf self')) <> Vec3 0 0 (- g)).
Proof.
  intros Hpolicy Hall Hn Hne.
  destruct (initialize_ready self imus Hn Hne) as (self' & Hinit & Hx & _).
  exists self'. split; [done|].
  rewrite (sample_means_constant (Vec3 0 0 (- g)) vzero) in Hx by done.
  unfold seed_state in Hx. rewrite Hpolicy in Hx. cbn [fst snd] in Hx.
  replace (vopp (Vec3 0 0 (- g))) with (Vec3 0 0 g) in Hx
    by (unfold vopp; cbn; f_equal; ring).
  split_and!.
  - exact Hx.
  - intros Hframe. rewrite Hx, Hframe. by split.
  - intros k Hk Hg Hup Hdown. rewrite Hup in Hdown.
    apply (f_equal vz) in Hdown. change (k * g = - g) in Hdown.
    assert (0 < k * g) as Hpos.
    { rewrite <- (Qcmult_0_l g). by apply Qcmult_lt_compat_r. }
    rewrite Hdown in Hpos. apply (Qclt_not_le _ _ Hpos).
    apply (Qcplus_le_mono_r _ _ g). replace (- g + g) with 0 by ring.
    rewrite Qcplus_0_l. by apply Qclt_le_weak.
Qed.

(** C8 (amended).  The inner point walk stops consuming for an interval
    at a point whose offset does not exceed [head.offset], and it ends at
    the first point once it has consumed it, the cursor staying there.
    The earliest pose-cache entry is the first one, of offset 0.
    Consequently, provided the offsets of the pose cache ascend, a point
    of the sorted scan whose offset is at or before that entry's is
    never visited, and [undistort] leaves it as it was. *)
Theorem early_points_are_not_visited self package self' package' trace :
  undistort self package = Ok (self', package', trace) ->
  (forall cur head tail points it tr p,
      points !! it = Some p -> ~ Pose.offset head < seconds p ->
      walk cur head tail points it tr = Ok (points, it, tr))
  /\ (forall cur head tail points tr p,
        points !! 0%nat = Some p -> Pose.offset head < seconds p ->
        walk cur head tail points 0 tr
        = Ok (<[0%nat := compensate cur head tail p]> points, 0%nat,
              tr ++ [MkVisit 0 head tail]))
  /\ (exists e0, head (IMUProcessor.m_imu_poses_cache self') = Some e0
                 /\ Pose.offset e0 = 0)
  /\ (Sorted Qcle (Pose.offset <$> IMUProcessor.m_imu_poses_cache self') ->
      forall i p e0,
        head (IMUProcessor.m_imu_poses_cache self') = Some e0 ->
        std_sort (SyncPackage.cloud package) !! i = Some p ->
        seconds p <= Pose.offset e0 ->
        (i ∉ (v_index <$> trace)) /\ SyncPackage.cloud package' !! i = Some p).
Proof.
  intros H. split_and!.
  - intros cur head tail points it tr p Hp Hn. by apply (walk_stops _ _ _ _ _ _ p).
  - intros cur head tail points tr p Hp Hlt. by apply walk_ends_at_first.
  - rewrite (undistort_processor _ _ _ _ _ H).
    destruct (propagate_poses self package) as (added & -> & _).
    eexists. split; reflexivity.
  - intros Hasc i p e0 He0 Hp Hearly. unfold undistort in H.
    destruct (deskew _ _ _) as [[points tr]|] eqn:Hd; [|done].
    cbn in H. injection H as <- <- <-.
    apply deskew_trace in Hd as [-> Hall].
    assert (i ∉ (v_index <$> tr)) as Hi.
    { intros (v & -> & Hv)%list_elem_of_fmap.
      rewrite Forall_forall in Hall. destruct (Hall v Hv) as [Hin Hc].
      destruct (IMUProcessor.m_imu_poses_cache (propagate self package))
        as [|e0' rest]; [discriminate He0|].
      injection He0 as ->.
      destruct (consumed_after_first _ _ _ _ Hasc Hin Hc) as (c & Hc' & Hlt).
      rewrite list_lookup_fmap, Hp in Hc'. injection Hc' as <-.
      by apply (Qcle_not_lt _ _ Hearly Hlt). }
    split; [done|]. cbn. by rewrite replay_lookup_unvisited.
Qed.

(** C9.  [undistort] sorts the scan by curvature before anything else:
    the sorted scan is ordered and a permutation of the input, its
    sequence of offsets is the same for every order the points are given
    in, the deskew pass runs on it, and the corrected cloud carries the
    sorted sequence of offsets, so it is ordered too.  The call produces
    this cloud for every non-empty scan. *)
Theorem undistort_sorts_the_scan self package :
  Sorted curvature_le (std_sort (SyncPackage.cloud package))
  /\ std_sort (SyncPackage.cloud package) ≡ₚ SyncPackage.cloud package
  /\ (forall points, points ≡ₚ SyncPackage.cloud package ->
        PointType.curvature <$> std_sort points
        = PointType.curvature <$> std_sort (SyncPackage.cloud package))
  /\ match undistort self package with
     | Ok (self', package', trace) =>
         deskew (end_pose (IESKF.x (IMUProcessor.m_kf (propagate self package))))
                (IMUProcessor.m_imu_poses_cache (propagate self package))
                (std_sort (SyncPackage.cloud package))
         = Ok (SyncPackage.cloud package', trace)
         /\ PointType.curvature <$> SyncPackage.cloud package'
            = PointType.curvature <$> std_sort (SyncPackage.cloud package)
         /\ Sorted curvature_le (SyncPackage.cloud package')
     | OutOfBounds => SyncPackage.cloud package = []
     end.
Proof.
  split_and!.
  - apply std_sort_Sorted.
  - apply std_sort_Permutation.
  - intros points. apply std_sort_curvatures_unique.
  - destruct (undistort self package) as [[[self' package'] trace]|] eqn:H.
    + unfold undistort in H.
      destruct (deskew _ _ _) as [[points tr]|] eqn:Hd; [|done].
      cbn in H. injection H as <- <- <-. cbn.
      apply deskew_trace in Hd as Ht. destruct Ht as [-> _].
      assert (PointType.curvature <$> replay
                (IESKF.x (IMUProcessor.m_kf (propagate self package))) tr
                (std_sort (SyncPackage.cloud package))
              = PointType.curvature <$> std_sort (SyncPackage.cloud package)) as Hc
        by apply replay_curvature.
      split_and!; [done..|].
      apply Sorted_curvatures. rewrite Hc.
      apply Sorted_curvatures, std_sort_Sorted.
    + by apply undistort_out_of_bounds in H as [? _].
Qed.

(** C10.  There are inputs on which the first point of the scan is
    overwritten twice in one call: a scan of one point at 15 ms with
    samples at 10 ms and 20 ms.  The walk consumes the point in the
    interval of the last two pose-cache entries and ends there; the
    earlier interval, whose head the point's offset still exceeds,
    consumes it again and compensates the coordinates written by the
    first visit. *)
Theorem first_point_is_overwritten_twice :
  exists self package self' package' trace p e0 e1 e2,
    undistort self package = Ok (self', package', trace)
    /\ std_sort (SyncPackage.cloud package) = [p]
    /\ IMUProcessor.m_imu_poses_cache self' = [e0; e1; e2]
    /\ trace = [MkVisit 0 e1 e2; MkVisit 0 e0 e1]
    /\ SyncPackage.cloud package'
       = [compensate (end_pose (IESKF.x (IMUProcessor.m_kf self'))) e0 e1
            (compensate (end_pose (IESKF.x (IMUProcessor.m_kf self'))) e1 e2 p)].
Proof.
  exists (Sample.processor 0 0), Sample.scan1.
  destruct (propagate_poses (Sample.processor 0 0) Sample.scan1) as (added & Hcache & Hoff).
  assert (steps (Sample.processor 0 0) Sample.scan1
          = [(Sample.imu 0, Sample.imu (q 10 1000));
             (Sample.imu (q 10 1000), Sample.imu (q 20 1000))]) as Hsteps
    by (by vm_compute).
  rewrite Hsteps in Hoff.
  destruct added as [|e1 [|e2 [|e3 added]]]; try discriminate Hoff.
  injection Hoff as Hoff1 Hoff2.
  eexists _, _, _, (Sample.point (q 1 1) 0 0 (q 15 1)), _, e1, e2.
  unfold undistort. rewrite Hcache.
  change (std_sort (SyncPackage.cloud Sample.scan1))
    with [Sample.point (q 1 1) 0 0 (q 15 1)].
  rewrite deskew_single_point_twice.
  - cbn [bind fst snd]. split_and!; try reflexivity. exact Hcache.
  - rewrite Hoff1. reflexivity.
  - reflexivity.
Qed.

(** The offsets of the pose cache on the late scan, for any estimator:
    the sample at 2.25 s precedes the scan start at 2.5 s. *)
Lemma late_scan_offsets :
  Pose.offset <$> IMUProcessor.m_imu_poses_cache
    (propagate (Sample.processor (q 2 1) (q 2 1)) Sample.late_scan)
  = [0; q 9 4 - q 5 2; q 3 1 - q 5 2].
Proof.
  rewrite propagate_offsets. reflexivity.
Qed.

(** C3 (the code at the failing input).  On a scan without points and a
    batch with one sample to integrate, [undistort] reads the curvature
    of the element before the beginning of the scan. *)
Theorem undistort_empty_scan_reads_out_of_bounds :
  undistort (Sample.processor 0 0) Sample.scan0 = OutOfBounds.
Proof.
  apply undistort_out_of_bounds. split; [reflexivity|].
  by vm_compute.
Qed.

End Claims.

(** * The claims on sample data *)

(** Decides a closed decidable proposition by evaluation. *)
Ltac decide_by_eval := apply (bool_decide_unpack _); vm_compute; exact I.

(** C5 on the three-point scan: its four predictions have [dt >= 0]. *)
Lemma predict_dt_nonnegative_witness :
  Forall (fun call => 0 <= call.2)
         (drop (length (IESKF.calls (IMUProcessor.m_kf (Sample.processor 0 0))))
               (IESKF.calls (IMUProcessor.m_kf
                  (propagate (ext := reference) (Sample.processor 0 0) Sample.scan3)))).
Proof.
  apply (predict_dt_nonnegative (ext := reference)).
  - decide_by_eval.
  - decide_by_eval.
Defined.

(** C6 on the three-point scan: the scan starts with the window, and the
    offsets of the pose cache ascend. *)
Lemma pose_cache_after_propagate_witness :
  Sorted Qcle (Pose.offset <$> IMUProcessor.m_imu_poses_cache
                 (propagate (ext := reference) (Sample.processor 0 0) Sample.scan3)).
Proof.
  apply (proj2 (proj2 (proj2
           (pose_cache_after_propagate (ext := reference)
              (Sample.processor 0 0) Sample.scan3)))).
  - decide_by_eval.
  - decide_by_eval.
Defined.

(** C6 as stated fails: with strictly increasing samples, one of which
    lies between the last processed end time (2 s) and the scan start
    (2.5 s), the offsets of the pose cache are 0, -1/4, 1/2. *)
Lemma pose_cache_not_ascending :
  Sorted Qclt (IMUData.timestamp <$> window (Sample.processor (q 2 1) (q 2 1)) Sample.late_scan)
  /\ Pose.offset <$> IMUProcessor.m_imu_poses_cache
        (propagate (ext := reference) (Sample.processor (q 2 1) (q 2 1)) Sample.late_scan)
     = [0; - q 1 4; q 1 2]
  /\ ~ Sorted Qcle
        (Pose.offset <$> IMUProcessor.m_imu_poses_cache
           (propagate (ext := reference) (Sample.processor (q 2 1) (q 2 1)) Sample.late_scan)).
Proof.
  split_and!; decide_by_eval.
Qed.

(** X14 on a threshold of one and one sample: ready, covariance seeded. *)
Lemma initialize_readiness_witness :
  exists self',
    initialize (ext := reference) (Sample.fresh 1) [Sample.imu 0] = Ok (true, self')
    /\ IESKF.P (IMUProcessor.m_kf self') = init_P.
Proof.
  destruct (proj1 (proj2 (initialize_readiness (ext := reference)
                            (Sample.fresh 1) [Sample.imu 0])))
    as (self' & Hinit & _ & HP).
  - cbn. lia.
  - discriminate.
  - exists self'. split; [exact Hinit | exact HP].
Defined.

(** C4 (amended) on one sample reading [(0, 0, -9.81)], with the
    gravity seeding of the specification: the direction handed over is
    [(0, 0, 9.81)], and the seeded gravity is not [(0, 0, -9.81)]. *)
Lemma initialize_no_align_stationary_witness :
  exists self',
    initialize (ext := reference) (Sample.fresh 1) [Sample.falling] = Ok (true, self')
    /\ IESKF.x (IMUProcessor.m_kf self')
       = initG_spec (q 981 100) (Vec3 0 0 (q 981 100))
           (set_ext_bg midentity vzero vzero Sample.state)
    /\ State.bg (IESKF.x (IMUProcessor.m_kf self')) = vzero
    /\ State.rot (IESKF.x (IMUProcessor.m_kf self')) = midentity
    /\ State.g (IESKF.x (IMUProcessor.m_kf self')) <> Vec3 0 0 (- q 981 100).
Proof.
  destruct (initialize_no_align_stationary (ext := reference)
              (Sample.fresh 1) [Sample.falling] (q 981 100))
    as (self' & Hinit & Hx & Hframe & Hsign).
  - reflexivity.
  - repeat constructor.
  - cbn. lia.
  - discriminate.
  - exists self'. split_and!.
    + exact Hinit.
    + exact Hx.
    + apply Hframe. intros dir x. reflexivity.
    + apply Hframe. intros dir x. reflexivity.
    + apply (Hsign 1).
      * reflexivity.
      * reflexivity.
      * rewrite Hx. decide_by_eval.
Defined.

(** C4 as stated fails.  The sample reads [(0, 0, -9.81)]: the seeded
    gravity is [(0, 0, 9.81)], not [(0, 0, -9.81)].  And on an estimator
    whose attitude is a quarter turn about z the seeded attitude is that
    turn, not the identity. *)
Lemma initialize_no_align_gravity_is_negated_mean :
  Forall (fun imu => IMUData.acc imu = Vec3 0 0 (- q 981 100) /\ IMUData.gyro imu = vzero)
         [Sample.falling]
  /\ (exists self',
        initialize (ext := reference) (Sample.fresh 1) [Sample.falling] = Ok (true, self')
        /\ State.g (IESKF.x (IMUProcessor.m_kf self')) = Vec3 0 0 (q 981 100)
        /\ State.g (IESKF.x (IMUProcessor.m_kf self')) <> Vec3 0 0 (- q 981 100))
  /\ (exists self',
        initialize (ext := reference) (Sample.fresh_turned 1) [Sample.falling]
        = Ok (true, self')
        /\ State.rot (IESKF.x (IMUProcessor.m_kf self')) = Sample.quarter_turn
        /\ State.rot (IESKF.x (IMUProcessor.m_kf self')) <> midentity).
Proof.
  split_and!.
  - repeat constructor.
  - eexists. split; [reflexivity|]. split; decide_by_eval.
  - eexists. split; [reflexivity|]. split; decide_by_eval.
Qed.

(** C8 (amended) on the three-point scan, whose pose cache ascends: the
    point at offset 0 is not visited and keeps its coordinates. *)
Lemma early_points_are_not_visited_witness :
  exists self' package' trace,
    undistort (ext := reference) (Sample.processor 0 0) Sample.scan3
    = Ok (self', package', trace)
    /\ (0%nat ∉ (v_index <$> trace))
    /\ SyncPackage.cloud package' !! 0%nat = Some (Sample.point (q 2 1) 0 0 0).
Proof.
  destruct (undistort (ext := reference) (Sample.processor 0 0) Sample.scan3)
    as [[[self' package'] trace]|] eqn:H.
  - exists self', package', trace. split; [reflexivity|].
    destruct (early_points_are_not_visited (ext := reference) _ _ _ _ _ H)
      as (_ & _ & (e0 & He0 & Hoff) & Hearly).
    apply (fun Hs => Hearly Hs 0%nat (Sample.point (q 2 1) 0 0 0) e0 He0).
    + rewrite (undistort_processor _ _ _ _ _ H). decide_by_eval.
    + decide_by_eval.
    + rewrite Hoff. decide_by_eval.
  - vm_compute in H. discriminate H.
Defined.

(** C8 as stated fails.  On the late scan the offsets of the pose cache
    are 0, -1/4, 1/2.  The scan's only point has offset 0, the offset of
    the earliest entry of the cache; the interval headed by the entry of
    offset -1/4 consumes it, and its x moves from 1 to 1/2. *)
Lemma early_point_is_visited_when_offsets_descend :
  std_sort (SyncPackage.cloud Sample.late_scan) = [Sample.point (q 1 1) 0 0 0]
  /\ seconds (Sample.point (q 1 1) 0 0 0) <= 0
  /\ observed (undistort (ext := reference) (Sample.processor (q 2 1) (q 2 1))
                         Sample.late_scan)
     = Some ([0; - q 1 4; q 1 2], [0%nat], [Sample.point (q 1 2) 0 0 0]).
Proof.
  split_and!; decide_by_eval.
Qed.

(** * Further properties of the source *)

(** ** Noise and covariance matrices *)

Lemma setIdentity_diagonal : diagonal setIdentity.
Proof.
  intros i j Hne. unfold setIdentity.
  by destruct (Nat.eqb_spec i j).
Qed.

Lemma setIdentity_positive : positive_diagonal setIdentity.
Proof.
  intros i. unfold setIdentity. by rewrite Nat.eqb_refl.
Qed.

Lemma set_diag_block_diagonal n k s M : diagonal M -> diagonal (set_diag_block n k s M).
Proof.
  intros HM i j Hne. unfold set_diag_block.
  destruct (_ && _)%bool; [|by apply HM].
  destruct (Nat.eqb_spec i j); [done|]. ring.
Qed.

Lemma set_diag_block_positive n k s M :
  0 < s -> positive_diagonal M -> positive_diagonal (set_diag_block n k s M).
Proof.
  intros Hs HM i. unfold set_diag_block.
  destruct (_ && _)%bool; [|by apply HM].
  rewrite Nat.eqb_refl. by rewrite Qcmult_1_l.
Qed.

Lemma diagonal_symmetric M : diagonal M -> forall i j : nat, M i j = M j i.
Proof.
  intros HM i j. destruct (decide (i = j)) as [->|Hne]; [done|].
  rewrite (HM i j), (HM j i); done.
Qed.

(** X1.  The process noise built by the constructor is a diagonal, hence
    symmetric, matrix, and its diagonal is strictly positive when the
    four configured noise densities are. *)
Theorem new_process_noise config kf last_imu last_end_time :
  diagonal (IMUProcessor.m_Q (new config kf last_imu last_end_time))
  /\ (forall i j : nat,
        IMUProcessor.m_Q (new config kf last_imu last_end_time) i j
        = IMUProcessor.m_Q (new config kf last_imu last_end_time) j i)
  /\ (0 < Config.ng config -> 0 < Config.na config ->
      0 < Config.nbg config -> 0 < Config.nba config ->
      positive_diagonal (IMUProcessor.m_Q (new config kf last_imu last_end_time))).
Proof.
  assert (diagonal (IMUProcessor.m_Q (new config kf last_imu last_end_time))) as Hd.
  { cbn. repeat apply set_diag_block_diagonal. apply setIdentity_diagonal. }
  split_and!; [done | by apply diagonal_symmetric |].
  intros Hng Hna Hnbg Hnba. cbn.
  repeat (apply set_diag_block_positive; [done|]). apply setIdentity_positive.
Qed.

(** X2.  The covariance seeded by [initialize] is a diagonal, hence
    symmetric, matrix with a strictly positive diagonal. *)
Theorem init_P_is_valid_covariance :
  diagonal init_P
  /\ (forall i j : nat, init_P i j = init_P j i)
  /\ positive_diagonal init_P.
Proof.
  assert (diagonal init_P) as Hd.
  { unfold init_P. repeat apply set_diag_block_diagonal. apply setIdentity_diagonal. }
  split_and!; [done | by apply diagonal_symmetric |].
  unfold init_P.
  repeat (apply set_diag_block_positive; [reflexivity|]). apply setIdentity_positive.
Qed.

(** ** Initialization across calls and [process] *)

Section Process.

Context {ext : Externals}.

(** A not-ready call only stores the buffer. *)
Lemma initialize_not_ready_inv self imus self' :
  initialize self imus = Ok (false, self') ->
  (length (IMUProcessor.m_imu_cache self ++ imus)
   < Config.imu_init_num (IMUProcessor.m_config self))%nat
  /\ self' = set_imu_cache (IMUProcessor.m_imu_cache self ++ imus) self.
Proof.
  intros H.
  destruct (decide (length (IMUProcessor.m_imu_cache self ++ imus)
                    < Config.imu_init_num (IMUProcessor.m_config self))%nat) as [Hlt|Hge].
  - rewrite initialize_not_ready in H by done. by injection H as <-.
  - destruct (decide (IMUProcessor.m_imu_cache self ++ imus = [])) as [He|Hne].
    + rewrite initialize_empty in H by (done || lia). done.
    + destruct (initialize_ready self imus) as (s & Hs & _); [lia|done|].
      rewrite Hs in H. done.
Qed.

(** The processor a ready call returns. *)
Lemma initialize_ready_result self imus last :
  (Config.imu_init_num (IMUProcessor.m_config self)
   <= length (IMUProcessor.m_imu_cache self ++ imus))%nat ->
  back (IMUProcessor.m_imu_cache self ++ imus) = Ok last ->
  initialize self imus
  = Ok (true,
        IMUProcessor.mk (IMUProcessor.m_config self)
          (IESKF.mk
             (seed_state (IMUProcessor.m_config self)
                (sample_means (IMUProcessor.m_imu_cache self ++ imus)).1
                (sample_means (IMUProcessor.m_imu_cache self ++ imus)).2
                (IESKF.x (IMUProcessor.m_kf self)))
             init_P (IESKF.calls (IMUProcessor.m_kf self)))
          (IMUProcessor.m_Q self) (IMUProcessor.m_last_acc self)
          (IMUProcessor.m_last_gyro self) (IMUProcessor.m_imu_cache self ++ imus)
          (IMUProcessor.m_imu_poses_cache self) last
          (IMUProcessor.m_last_end_time self) (IMUProcessor.is_initialized self)).
Proof.
  intros Hn Hback. unfold initialize.
  rewrite bool_decide_false by (cbn; lia). cbn. by rewrite Hback.
Qed.

Lemma last_cons_default {A} (l : list A) (a : A) : last (a :: l) = Some (List.last l a).
Proof.
  revert a. induction l as [|b l IH]; intros a; [done|].
  rewrite last_cons_cons, IH. f_equal.
  clear IH. revert b. induction l as [|c l IH]; intros b; [done|].
  cbn [List.last] in *. destruct l; [done|]. apply IH.
Qed.

Lemma back_app_cons {A} (l1 l2 : list A) (a : A) :
  back (l1 ++ a :: l2) = Ok (List.last l2 a).
Proof.
  unfold back. by rewrite last_app_cons, last_cons_default.
Qed.

(** X3.  Samples accumulate across calls: after a call that returned
    not-ready on a first batch, a call on a second batch does what one
    call on the two batches in a row would have done. *)
Theorem initialize_accumulates self imus1 imus2 self1 :
  initialize self imus1 = Ok (false, self1) ->
  initialize self1 imus2 = initialize self (imus1 ++ imus2).
Proof.
  intros [_ ->]%initialize_not_ready_inv.
  unfold initialize. cbn [set_imu_cache IMUProcessor.m_imu_cache IMUProcessor.m_config
                          IMUProcessor.m_kf IMUProcessor.m_Q IMUProcessor.m_last_acc
                          IMUProcessor.m_last_gyro IMUProcessor.m_imu_poses_cache
                          IMUProcessor.m_last_end_time IMUProcessor.is_initialized].
  by rewrite <- app_assoc.
Qed.

(** X4.  While the processor is not initialized and the buffer stays
    below the threshold, [process] only stores the batch's samples: the
    scan comes back as it was given, neither sorted nor compensated, the
    estimator is not touched, and the processor stays uninitialized. *)
Theorem process_passes_scan_through_until_ready self sync :
  IMUProcessor.is_initialized self = false ->
  (length (IMUProcessor.m_imu_cache self ++ SyncPackage.imus sync)
   < Config.imu_init_num (IMUProcessor.m_config self))%nat ->
  exists self',
    process self sync = Ok (self', sync)
    /\ IMUProcessor.m_kf self' = IMUProcessor.m_kf self
    /\ IMUProcessor.m_imu_cache self'
       = IMUProcessor.m_imu_cache self ++ SyncPackage.imus sync
    /\ IMUProcessor.is_initialized self' = false.
Proof.
  intros Hinit Hlt. unfold process. rewrite Hinit.
  rewrite initialize_not_ready by done. cbn.
  eexists. by split_and!.
Qed.

Lemma initialize_keeps_config self imus ready self' :
  initialize self imus = Ok (ready, self') ->
  IMUProcessor.m_config self' = IMUProcessor.m_config self
  /\ IMUProcessor.m_Q self' = IMUProcessor.m_Q self.
Proof.
  unfold initialize. case_bool_decide; [by intros [= <- <-]|].
  destruct (back _); [|done]. by intros [= <- <-].
Qed.

(** X5.  Whatever path [process] takes, when it returns it has kept the
    configuration and the process noise, it has not reset an initialized
    processor, and the package it hands back has the samples, the time
    bounds and the number of points of the package it was given. *)
Theorem process_invariants self sync self' sync' :
  process self sync = Ok (self', sync') ->
  IMUProcessor.m_config self' = IMUProcessor.m_config self
  /\ IMUProcessor.m_Q self' = IMUProcessor.m_Q self
  /\ (IMUProcessor.is_initialized self = true -> IMUProcessor.is_initialized self' = true)
  /\ SyncPackage.imus sync' = SyncPackage.imus sync
  /\ SyncPackage.cloud_start_time sync' = SyncPackage.cloud_start_time sync
  /\ SyncPackage.cloud_end_time sync' = SyncPackage.cloud_end_time sync
  /\ length (SyncPackage.cloud sync') = length (SyncPackage.cloud sync).
Proof.
  assert (forall s s' p' tr,
             undistort s sync = Ok (s', p', tr) ->
             IMUProcessor.m_config s' = IMUProcessor.m_config s
             /\ IMUProcessor.m_Q s' = IMUProcessor.m_Q s
             /\ IMUProcessor.is_initialized s' = IMUProcessor.is_initialized s
             /\ SyncPackage.imus p' = SyncPackage.imus sync
             /\ SyncPackage.cloud_start_time p' = SyncPackage.cloud_start_time sync
             /\ SyncPackage.cloud_end_time p' = SyncPackage.cloud_end_time sync
             /\ length (SyncPackage.cloud p') = length (SyncPackage.cloud sync)) as Hu.
  { intros s s' p' tr H. unfold undistort in H.
    destruct (deskew _ _ _) as [[points t]|] eqn:Hd; [|done].
    cbn in H. injection H as <- <- <-.
    apply deskew_trace in Hd as [-> _]. cbn.
    split_and!; try done.
    rewrite replay_length. unfold std_sort.
    by rewrite merge_sort_Permutation. }
  unfold process. destruct (IMUProcessor.is_initialized self) eqn:Hinit; cbn.
  - rewrite Hinit.
    destruct (undistort self sync) as [[[s p] tr]|] eqn:Hund; [|done].
    cbn. intros [= <- <-]. destruct (Hu _ _ _ _ Hund) as (? & ? & Hi & ? & ? & ? & ?).
    split_and!; try done. intros _. by rewrite Hi.
  - destruct (initialize self (SyncPackage.imus sync)) as [[ready s1]|] eqn:Hi; [|done].
    cbn. destruct (initialize_keeps_config _ _ _ _ Hi) as [Hc HQ].
    destruct ready; cbn.
    + destruct (undistort (set_is_initialized true s1) sync) as [[[s p] tr]|] eqn:Hund;
        [|done].
      cbn. intros [= <- <-]. destruct (Hu _ _ _ _ Hund) as (Hc' & HQ' & _ & ? & ? & ? & ?).
      split_and!; try done.
      * by rewrite Hc'.
      * by rewrite HQ'.
    + intros [= <- <-]. by split_and!.
Qed.

End Process.

(** ** Integrated time *)

Lemma qmax_l (a b : Qc) : b <= a -> qmax a b = a.
Proof.
  intros H. unfold qmax. rewrite bool_decide_false; [done|]. by apply Qcle_not_lt.
Qed.

Lemma qmax_r (a b : Qc) : a < b -> qmax a b = b.
Proof. intros H. unfold qmax. by rewrite bool_decide_true. Qed.

Lemma Qc_sub_neg (a b : Qc) : a < b -> a - b < 0.
Proof.
  intros H. apply (Qcplus_lt_mono_r _ _ b).
  replace (a - b + b) with a by ring. by rewrite Qcplus_0_l.
Qed.

Lemma total_dt_app (calls1 calls2 : list (Input.t * Qc)) :
  total_dt (calls1 ++ calls2) = total_dt calls1 + total_dt calls2.
Proof.
  induction calls1 as [|c calls1 IH].
  - cbn. by rewrite Qcplus_0_l.
  - change (total_dt ((c :: calls1) ++ calls2)) with (c.2 + total_dt (calls1 ++ calls2)).
    change (total_dt (c :: calls1)) with (c.2 + total_dt calls1).
    rewrite IH. ring.
Qed.

Lemma List_last_cons {A} (l : list A) (a b : A) : List.last (b :: l) a = List.last l b.
Proof.
  revert a b. induction l as [|c l IH]; intros a b; [done|].
  change (List.last (b :: c :: l) a) with (List.last (c :: l) a).
  by rewrite !IH.
Qed.

(** The per-pair predictions of a time-ordered window telescope. *)
Lemma integrated_pairs_total (last_end : Qc) (rest : list IMUData.t) : forall anchor,
  Sorted Qcle (IMUData.timestamp <$> anchor :: rest) ->
  last_end <= IMUData.timestamp (List.last rest anchor) ->
  total_dt (prediction last_end <$> filter (integrated last_end) (adjacent (anchor :: rest)))
  = IMUData.timestamp (List.last rest anchor) - qmax (IMUData.timestamp anchor) last_end.
Proof.
  induction rest as [|a rest IH]; intros anchor Hs Hend.
  - cbn in *. rewrite qmax_l by done. ring.
  - change (adjacent (anchor :: a :: rest)) with ((anchor, a) :: adjacent (a :: rest)).
    rewrite List_last_cons in *. rewrite fmap_cons in Hs.
    apply Sorted_inv in Hs as [Hs Hhd]. apply HdRel_inv in Hhd.
    specialize (IH a Hs Hend). rewrite filter_cons.
    destruct (decide (integrated last_end (anchor, a))) as [Hint|Hint].
    + rewrite fmap_cons.
      change (total_dt (?c :: ?l)) with (c.2 + total_dt l). rewrite IH.
      unfold prediction, step_dt; cbn [fst snd].
      unfold integrated in Hint; cbn [fst snd] in Hint. rewrite (qmax_l _ _ Hint). ring.
    + rewrite IH. apply Qcnot_le_lt in Hint. cbn [fst snd] in Hint.
      rewrite (qmax_r _ _ Hint), qmax_r; [done|].
      by eapply Qcle_lt_trans.
Qed.

Section Continuity.

Context {ext : Externals}.

(** X6.  For a window in time order whose last sample is not before the
    last processed end time, the predictions of one propagation advance
    the estimator by exactly the time from the later of the anchor's
    timestamp and the last processed end time to the scan's end: no time
    is integrated twice and none is left out. *)
Theorem propagate_integrates_up_to_scan_end self package :
  Sorted Qcle (IMUData.timestamp <$> window self package) ->
  IMUProcessor.m_last_end_time self
    <= IMUData.timestamp (List.last (SyncPackage.imus package) (IMUProcessor.m_last_imu self)) ->
  total_dt (drop (length (IESKF.calls (IMUProcessor.m_kf self)))
                 (IESKF.calls (IMUProcessor.m_kf (propagate self package))))
  = SyncPackage.cloud_end_time package
    - qmax (IMUData.timestamp (IMUProcessor.m_last_imu self))
           (IMUProcessor.m_last_end_time self).
Proof.
  intros Hs Hend. rewrite propagate_calls, drop_app_length, total_dt_app.
  unfold steps, window. rewrite integrated_pairs_total by done.
  unfold trailing_dt. cbn. ring.
Qed.

(** X7.  When no pair of samples is integrated, as with an empty batch,
    [undistort] issues the trailing prediction alone, with the
    default-constructed input; the pose cache is the seed alone, the
    corrected measurements are kept, and the scan is sorted and nothing
    else, without any access outside it even if it has no point. *)
Theorem undistort_without_integrated_pair self package :
  steps self package = [] ->
  undistort self package
  = Ok (propagate self package,
        set_cloud (std_sort (SyncPackage.cloud package)) package, [])
  /\ IESKF.calls (IMUProcessor.m_kf (propagate self package))
     = IESKF.calls (IMUProcessor.m_kf self)
       ++ [(default_input,
            SyncPackage.cloud_end_time package
            - IMUData.timestamp
                (List.last (SyncPackage.imus package) (IMUProcessor.m_last_imu self)))]
  /\ IMUProcessor.m_imu_poses_cache (propagate self package)
     = [pose_of 0 (IMUProcessor.m_last_acc self) (IMUProcessor.m_last_gyro self)
                (IESKF.x (IMUProcessor.m_kf self))]
  /\ IMUProcessor.m_last_acc (propagate self package) = IMUProcessor.m_last_acc self
  /\ IMUProcessor.m_last_gyro (propagate self package) = IMUProcessor.m_last_gyro self.
Proof.
  intros Hsteps.
  assert (IMUProcessor.m_imu_poses_cache (propagate self package)
          = [pose_of 0 (IMUProcessor.m_last_acc self) (IMUProcessor.m_last_gyro self)
                     (IESKF.x (IMUProcessor.m_kf self))]) as Hcache.
  { destruct (propagate_poses self package) as (added & -> & Hoff).
    rewrite Hsteps in Hoff. by destruct added. }
  split_and!.
  - unfold undistort. by rewrite Hcache.
  - rewrite propagate_calls. unfold trailing_input, trailing_dt. by rewrite Hsteps.
  - done.
  - unfold propagate. cbn [IMUProcessor.m_last_acc]. rewrite foldl_imu_step.
    fold (window self package). fold (steps self package). by rewrite Hsteps.
  - unfold propagate. cbn [IMUProcessor.m_last_gyro]. rewrite foldl_imu_step.
    fold (window self package). fold (steps self package). by rewrite Hsteps.
Qed.

(** X8.  On the call of [process] that completes initialization, the
    anchor of the propagation that follows is the last sample of the same
    batch.  With at least two samples in strictly increasing time order,
    the first of them not before the last processed end time, the first
    prediction of that call therefore pairs the batch's last sample with
    its first one and has a negative [dt]. *)
Theorem process_first_prediction_goes_back_in_time self sync a b rest :
  IMUProcessor.is_initialized self = false ->
  SyncPackage.imus sync = a :: b :: rest ->
  Sorted Qclt (IMUData.timestamp <$> SyncPackage.imus sync) ->
  (Config.imu_init_num (IMUProcessor.m_config self)
   <= length (IMUProcessor.m_imu_cache self ++ SyncPackage.imus sync))%nat ->
  IMUProcessor.m_last_end_time self <= IMUData.timestamp a ->
  SyncPackage.cloud sync <> [] ->
  exists self' sync' inp dt,
    process self sync = Ok (self', sync')
    /\ IESKF.calls (IMUProcessor.m_kf self') !! length (IESKF.calls (IMUProcessor.m_kf self))
       = Some (inp, dt)
    /\ dt = IMUData.timestamp a
            - qmax (IMUData.timestamp (List.last rest b)) (IMUProcessor.m_last_end_time self)
    /\ dt < 0.
Proof.
  intros Hinit Himus Hsorted Hthr Hend Hcloud.
  unfold process. rewrite Hinit.
  rewrite (initialize_ready_result self (SyncPackage.imus sync) (List.last rest b)); cycle 1.
  { done. }
  { by rewrite Himus, back_app_cons, List_last_cons. }
  cbn [bind fst snd set_is_initialized IMUProcessor.is_initialized].
  match goal with |- context [undistort ?s sync] => set (s1 := s) end.
  destruct (undistort s1 sync) as [[[s p] tr]|] eqn:Hund.
  - apply undistort_processor in Hund as ->. cbn [bind fst snd].
    exists (propagate s1 sync), p,
      (midpoint (List.last rest b, a)),
      (IMUData.timestamp a
       - qmax (IMUData.timestamp (List.last rest b)) (IMUProcessor.m_last_end_time self)).
    split_and!; [done| |done|].
    + rewrite propagate_calls.
      change (IESKF.calls (IMUProcessor.m_kf s1))
        with (IESKF.calls (IMUProcessor.m_kf self)).
      rewrite lookup_app_r by lia. rewrite Nat.sub_diag.
      unfold steps, window. rewrite Himus.
      change (adjacent (IMUProcessor.m_last_imu s1 :: a :: b :: rest))
        with ((List.last rest b, a) :: adjacent (a :: b :: rest)).
      rewrite filter_cons. rewrite decide_True by exact Hend. reflexivity.
    + apply Qc_sub_neg. eapply Qclt_le_trans; [|apply qmax_ge_l].
      rewrite Himus in Hsorted.
      apply Sorted_StronglySorted in Hsorted; [|intros x y z; apply Qclt_trans].
      rewrite fmap_cons in Hsorted. apply StronglySorted_cons in Hsorted as [Hall _].
      rewrite Forall_forall in Hall. apply Hall.
      apply list_elem_of_fmap_2. apply last_Some_elem_of.
      by rewrite last_cons_default.
  - apply undistort_out_of_bounds in Hund as [Hc _]. done.
Qed.

(** X13.  Two calls in a row: when the first batch's last sample is not
    after the first scan's end, and the second window is in time order
    and reaches the first scan's end, the second call advances the
    estimator by exactly the time between the two scan ends. *)
Theorem successive_calls_integrate_between_scan_ends self package1 package2 :
  Sorted Qcle (IMUData.timestamp <$> window (propagate self package1) package2) ->
  IMUData.timestamp (IMUProcessor.m_last_imu (propagate self package1))
    <= SyncPackage.cloud_end_time package1 ->
  SyncPackage.cloud_end_time package1
    <= IMUData.timestamp (List.last (SyncPackage.imus package2)
                            (IMUProcessor.m_last_imu (propagate self package1))) ->
  total_dt (drop (length (IESKF.calls (IMUProcessor.m_kf (propagate self package1))))
                 (IESKF.calls (IMUProcessor.m_kf
                    (propagate (propagate self package1) package2))))
  = SyncPackage.cloud_end_time package2 - SyncPackage.cloud_end_time package1.
Proof.
  intros Hs Hanchor Hend.
  rewrite (propagate_calls (propagate self package1)), drop_app_length, total_dt_app.
  unfold steps, window in *.
  change (IMUProcessor.m_last_end_time (propagate self package1))
    with (SyncPackage.cloud_end_time package1) in *.
  rewrite integrated_pairs_total by done.
  destruct (Qclt_le_dec
              (IMUData.timestamp (IMUProcessor.m_last_imu (propagate self package1)))
              (SyncPackage.cloud_end_time package1)) as [Hlt|Hge].
  - rewrite (qmax_r _ _ Hlt). unfold trailing_dt. cbn. ring.
  - rewrite (qmax_l _ _ Hge).
    assert (IMUData.timestamp (IMUProcessor.m_last_imu (propagate self package1))
            = SyncPackage.cloud_end_time package1) as Heq
      by (by apply Qcle_antisym).
    unfold trailing_dt. cbn. cbn in Heq. rewrite Heq. ring.
Qed.

End Continuity.

(** ** The order and the reach of the point walk *)

Lemma StronglySorted_lookup_le {A} (R : relation A) `{!Reflexive R} (l : list A) :
  StronglySorted R l ->
  forall i j a b, (i <= j)%nat -> l !! i = Some a -> l !! j = Some b -> R a b.
Proof.
  induction 1 as [|x l Hs IH Hall]; intros i j a b Hij Ha Hb; [done|].
  destruct i as [|i], j as [|j]; cbn in *.
  - by simplify_eq.
  - injection Ha as ->. rewrite Forall_forall in Hall.
    apply Hall. by eapply list_elem_of_lookup_2.
  - lia.
  - eapply IH; [|done..]. lia.
Qed.

Lemma seconds_mono (c1 c2 : Qc) : c1 <= c2 -> c1 / q 1000 1 <= c2 / q 1000 1.
Proof.
  intros H. unfold Qcdiv. apply Qcmult_le_compat_r; [done|]. by vm_compute.
Qed.

Lemma descends_NoDup (l : list nat) :
  StronglySorted descends l -> NoDup (filter (fun i => i <> 0%nat) l).
Proof.
  induction 1 as [|a l Hs IH Hall]; [constructor|].
  rewrite filter_cons. destruct (decide (a <> 0%nat)) as [Ha|Ha]; [|done].
  constructor; [|done].
  intros [_ Hin]%list_elem_of_filter.
  rewrite Forall_forall in Hall. destruct (Hall a Hin) as [?|[? _]]; lia.
Qed.

Lemma descends_le (l : list nat) :
  StronglySorted descends l -> StronglySorted (fun i j => (j <= i)%nat) l.
Proof.
  induction 1 as [|a l Hs IH Hall]; constructor; [done|].
  eapply Forall_impl; [exact Hall|]. intros b [?|[? ?]]; lia.
Qed.

Section Walk.

Context {ext : Externals}.

(** What one run of the inner loop visits: every index from the cursor
    down to, and excluding, the index it stops at; the first point too
    when it ends there by the break. *)
Lemma walk_indices cur head tail : forall it points trace points' it' trace',
  walk cur head tail points it trace = Ok (points', it', trace') ->
  exists vs,
    trace' = trace ++ vs
    /\ PointType.curvature <$> points' = PointType.curvature <$> points
    /\ (it' <= it)%nat
    /\ (forall j, (it' < j <= it)%nat -> j ∈ (v_index <$> vs))
    /\ ((exists c, (PointType.curvature <$> points) !! it' = Some c
                   /\ ~ Pose.offset head < c / q 1000 1)
        \/ (it' = 0%nat /\ 0%nat ∈ (v_index <$> vs)))
    /\ Forall (fun i => (i <= it)%nat /\ ((it' < i)%nat \/ (i = 0%nat /\ it' = 0%nat)))
              (v_index <$> vs)
    /\ StronglySorted descends (v_index <$> vs).
Proof.
  induction it as [|it IH]; intros points trace points' it' trace' H; cbn [walk] in H.
  - destruct (points !! 0%nat) as [p|] eqn:Hp; [|done].
    case_bool_decide as Hlt; injection H as <- <- <-.
    + exists [MkVisit 0 head tail]. split_and!; try done.
      * rewrite list_fmap_insert. apply list_insert_id.
        by rewrite list_lookup_fmap, Hp.
      * intros j Hj. lia.
      * right. split; [done|]. cbn. left.
      * constructor; [|constructor]. cbn. split; [lia|by right].
      * constructor; constructor.
    + exists []. split_and!; try done.
      * by rewrite app_nil_r.
      * intros j Hj. lia.
      * left. exists (PointType.curvature p). by rewrite list_lookup_fmap, Hp.
      * constructor.
  - destruct (points !! S it) as [p|] eqn:Hp; [|done].
    case_bool_decide as Hlt.
    + apply IH in H as (vs & -> & Hc & Hle & Hcover & Hstop & Hall & Hs).
      assert (PointType.curvature <$> <[S it:=compensate cur head tail p]> points
              = PointType.curvature <$> points) as Hc1.
      { rewrite list_fmap_insert. apply list_insert_id.
        by rewrite list_lookup_fmap, Hp. }
      rewrite Hc1 in *.
      exists (MkVisit (S it) head tail :: vs). split_and!.
      * by rewrite <- app_assoc.
      * done.
      * lia.
      * intros j Hj. rewrite fmap_cons. destruct (decide (j = S it)) as [->|Hne].
        -- left.
        -- right. apply Hcover. lia.
      * destruct Hstop as [Hstop|[-> Hin]]; [by left|].
        right. split; [done|]. rewrite fmap_cons. by right.
      * rewrite fmap_cons. constructor; [cbn; lia|].
        eapply Forall_impl; [exact Hall|]. intros i [? ?]. split; [lia|done].
      * rewrite fmap_cons. constructor; [done|].
        eapply Forall_impl; [exact Hall|]. intros i [? _]. left. cbn. lia.
    + injection H as <- <- <-. exists []. split_and!; try done.
      * by rewrite app_nil_r.
      * intros j Hj. lia.
      * left. exists (PointType.curvature p). by rewrite list_lookup_fmap, Hp.
      * constructor.
Qed.

(** The outer loop visits in descending order, at or below its cursor. *)
Lemma outer_loop_order cur : forall intervals points c trace points' trace',
  outer_loop cur intervals points c trace = Ok (points', trace') ->
  exists vs,
    trace' = trace ++ vs
    /\ Forall (fun i => (Z.of_nat i <= c)%Z) (v_index <$> vs)
    /\ StronglySorted descends (v_index <$> vs).
Proof.
  induction intervals as [|[head tail] rest IH]; intros points c trace points' trace' H;
    cbn [outer_loop] in H.
  - injection H as <- <-. exists []. split_and!; [by rewrite app_nil_r|constructor..].
  - unfold inner_loop in H. case_bool_decide as Hc; [done|].
    destruct (walk _ _ _ _ _ _) as [[[ps n] tr]|] eqn:Hw; [|done].
    cbn in H. apply walk_indices in Hw as (vs1 & -> & _ & Hle & _ & _ & Hall1 & Hs1).
    apply IH in H as (vs2 & -> & Hall2 & Hs2).
    exists (vs1 ++ vs2). split_and!.
    + by rewrite app_assoc.
    + rewrite fmap_app. apply Forall_app. split.
      * eapply Forall_impl; [exact Hall1|]. intros i [? _]. lia.
      * eapply Forall_impl; [exact Hall2|]. intros i ?. cbn in *. lia.
    + rewrite fmap_app. apply StronglySorted_app_2; [|done..].
      intros i1 i2 Hi1 Hi2.
      rewrite Forall_forall in Hall1. rewrite Forall_forall in Hall2.
      destruct (Hall1 i1 Hi1) as [_ Hi1']. specialize (Hall2 i2 Hi2). cbn in Hall2.
      unfold descends. lia.
Qed.

(** The outer loop reaches every point at or below its cursor whose
    offset exceeds the head of the last interval, the scan being sorted. *)
Lemma outer_loop_covers cur h0 t0 : forall pre points c trace points' trace',
  StronglySorted Qcle (PointType.curvature <$> points) ->
  outer_loop cur (pre ++ [(h0, t0)]) points c trace = Ok (points', trace') ->
  forall i ci,
    (Z.of_nat i <= c)%Z ->
    (PointType.curvature <$> points) !! i = Some ci ->
    Pose.offset h0 < ci / q 1000 1 ->
    i ∈ (v_index <$> trace').
Proof.
  induction pre as [|[head tail] pre IH]; intros points c trace points' trace' Hsorted H
    i ci Hi Hci Hlt; cbn [app outer_loop] in H.
  - unfold inner_loop in H. case_bool_decide as Hc; [done|].
    destruct (walk _ _ _ _ _ _) as [[[ps n] tr]|] eqn:Hw; [|done].
    cbn in H. injection H as <- <-.
    apply walk_indices in Hw as (vs & -> & _ & Hle & Hcover & Hstop & _ & _).
    rewrite fmap_app. apply elem_of_app. right.
    destruct (decide (n < i)%nat) as [Hn|Hn]; [apply Hcover; lia|].
    destruct Hstop as [(cn & Hcn & Hstop)|[-> Hin]].
    + exfalso. apply Hstop. eapply Qclt_le_trans; [exact Hlt|].
      apply seconds_mono.
      eapply (StronglySorted_lookup_le Qcle _ Hsorted i n); [lia|done..].
    + by replace i with 0%nat by lia.
  - unfold inner_loop in H. case_bool_decide as Hc; [done|].
    destruct (walk _ _ _ _ _ _) as [[[ps n] tr]|] eqn:Hw; [|done].
    cbn in H.
    apply walk_indices in Hw as (vs & -> & Hcurv & Hle & Hcover & _ & _ & _).
    destruct (decide (n < i)%nat) as [Hn|Hn].
    + apply outer_loop_order in H as (vs2 & -> & _).
      rewrite !fmap_app. apply elem_of_app. left. apply elem_of_app. right.
      apply Hcover. lia.
    + eapply (IH ps (Z.of_nat n)); [by rewrite Hcurv|exact H|lia| |exact Hlt].
      by rewrite Hcurv.
Qed.

(** X9.  Whenever at least one pair of samples is integrated, every
    point of the sorted scan with a positive time offset is compensated
    at least once.  If moreover the pose cache ascends, the compensated
    points are exactly those with a positive offset. *)
Theorem positive_offset_points_are_compensated self package self' package' trace :
  undistort self package = Ok (self', package', trace) ->
  steps self package <> [] ->
  (forall i p,
      std_sort (SyncPackage.cloud package) !! i = Some p ->
      0 < seconds p -> i ∈ (v_index <$> trace))
  /\ (Sorted Qcle (Pose.offset <$> IMUProcessor.m_imu_poses_cache self') ->
      forall i p,
        std_sort (SyncPackage.cloud package) !! i = Some p ->
        (i ∈ (v_index <$> trace) <-> 0 < seconds p)).
Proof.
  intros H Hsteps.
  assert (forall i p,
             std_sort (SyncPackage.cloud package) !! i = Some p ->
             0 < seconds p -> i ∈ (v_index <$> trace)) as Hcover.
  { intros i p Hp Hpos. unfold undistort in H.
    destruct (deskew _ _ _) as [[points tr]|] eqn:Hd; [|done].
    cbn in H. injection H as <- <- <-.
    destruct (propagate_poses self package) as (added & Hcache & Hoff).
    rewrite Hcache in Hd.
    destruct added as [|e1 added].
    { destruct (steps self package); [done|discriminate Hoff]. }
    unfold deskew in Hd.
    change (adjacent (?e0 :: e1 :: added)) with ((e0, e1) :: adjacent (e1 :: added)) in Hd.
    rewrite reverse_cons in Hd.
    eapply (outer_loop_covers _ _ _ _ _ _ _ _ _ _ Hd i (PointType.curvature p)).
    - apply lookup_lt_Some in Hp. lia.
    - by rewrite list_lookup_fmap, Hp.
    - exact Hpos. }
  split; [exact Hcover|].
  intros Hasc i p Hp. split; [|by apply Hcover].
  intros (v & -> & Hv)%list_elem_of_fmap.
  pose proof (undistort_processor _ _ _ _ _ H) as ->.
  unfold undistort in H.
  destruct (deskew _ _ _) as [[points tr]|] eqn:Hd; [|done].
  cbn in H. injection H as <- <-.
  apply deskew_trace in Hd as [_ Hall].
  rewrite Forall_forall in Hall. destruct (Hall v Hv) as [Hin Hc].
  destruct (propagate_poses self package) as (added & Hcache & _).
  rewrite Hcache in Hasc, Hin.
  destruct (consumed_after_first _ _ _ _ Hasc Hin Hc) as (c & Hc' & Hlt).
  rewrite list_lookup_fmap, Hp in Hc'. by injection Hc' as <-.
  Unshelve.
  apply Sorted_StronglySorted; [intros a b c; apply Qcle_trans|].
  apply Sorted_curvatures, std_sort_Sorted.
Qed.

(** X10.  The deskew pass visits the points from the last towards the
    first, never above where it has been, and it overwrites every point
    other than the first at most once in a call. *)
Theorem points_are_visited_in_descending_order self package self' package' trace :
  undistort self package = Ok (self', package', trace) ->
  StronglySorted (fun i j => (j <= i)%nat) (v_index <$> trace)
  /\ NoDup (filter (fun i => i <> 0%nat) (v_index <$> trace))
  /\ Forall (fun i => (i < length (SyncPackage.cloud package))%nat) (v_index <$> trace).
Proof.
  unfold undistort. intros H.
  destruct (deskew _ _ _) as [[points tr]|] eqn:Hd; [|done].
  cbn in H. injection H as <- <- <-.
  unfold deskew in Hd. apply outer_loop_order in Hd as (vs & -> & Hall & Hs).
  cbn [app]. split_and!.
  - by apply descends_le.
  - by apply descends_NoDup.
  - eapply Forall_impl; [exact Hall|]. intros i Hi. cbn in Hi.
    unfold std_sort in Hi. rewrite merge_sort_Permutation in Hi. lia.
Qed.

End Walk.

(** ** The deskew pass as a whole *)

Section Deskew.

Context {ext : Externals}.

(** A point other than the first is overwritten once: it ends as the
    deskewed image, in the interval of its visit, of the point it was. *)
Lemma replay_lookup_once x : forall trace points v p,
  NoDup (filter (fun i => i <> 0%nat) (v_index <$> trace)) ->
  v ∈ trace -> v_index v <> 0%nat ->
  points !! v_index v = Some p ->
  replay x trace points !! v_index v
  = Some (deskewed (State.rot x) (State.pos x) (State.rot_ext x) (State.pos_ext x)
                   (v_head v) (v_tail v) p).
Proof.
  induction trace as [|u trace IH]; intros points v p Hnd Hin Hne Hp.
  - by apply elem_of_nil in Hin.
  - rewrite fmap_cons, filter_cons in Hnd.
    change (replay x (u :: trace) points)
      with (replay x trace
              (alter (deskewed (State.rot x) (State.pos x) (State.rot_ext x)
                               (State.pos_ext x) (v_head u) (v_tail u))
                     (v_index u) points)).
    destruct (decide (v_index u = v_index v)) as [Heq|Hneq].
    + destruct (decide (v_index u <> 0%nat)) as [_|Hz]; [|by rewrite Heq in Hz].
      apply NoDup_cons in Hnd as [Hnotin _].
      assert (v_index v ∉ (v_index <$> trace)) as Hfresh.
      { intros Hc. apply Hnotin. rewrite Heq. by apply list_elem_of_filter. }
      assert (v = u) as ->.
      { apply elem_of_cons in Hin as [->|Hin]; [done|].
        exfalso. apply Hfresh. by apply list_elem_of_fmap_2. }
      rewrite replay_lookup_unvisited by done.
      by rewrite list_lookup_alter_eq, Hp.
    + apply elem_of_cons in Hin as [->|Hin]; [done|].
      apply IH; [|done..|].
      * destruct (decide (v_index u <> 0%nat)); [by apply NoDup_cons in Hnd as [_ ?]|done].
      * by rewrite list_lookup_alter_ne.
Qed.

(** At a point past the first whose offset exceeds the head's, the inner
    loop overwrites the point with its deskewed image and moves on to
    the point before it. *)
Lemma walk_consumes x head tail points it trace p :
  points !! S it = Some p ->
  Pose.offset head < seconds p ->
  walk (end_pose x) head tail points (S it) trace
  = walk (end_pose x) head tail
         (<[S it := deskewed (State.rot x) (State.pos x) (State.rot_ext x) (State.pos_ext x)
                             head tail p]> points)
         it (trace ++ [MkVisit (S it) head tail]).
Proof.
  unfold seconds. intros Hp Hlt. cbn [walk]. rewrite Hp.
  rewrite bool_decide_true by done. by rewrite compensate_deskewed.
Qed.

(** Whenever a pair of samples is integrated, the deskew pass reaches
    every point of the sorted scan with a positive offset. *)
Lemma undistort_covers self package self' package' trace :
  undistort self package = Ok (self', package', trace) ->
  steps self package <> [] ->
  forall i p,
    std_sort (SyncPackage.cloud package) !! i = Some p ->
    0 < seconds p -> i ∈ (v_index <$> trace).
Proof.
  intros H Hsteps i p Hp Hpos. unfold undistort in H.
  destruct (deskew _ _ _) as [[points tr]|] eqn:Hd; [|done].
  cbn in H. injection H as <- <- <-.
  destruct (propagate_poses self package) as (added & Hcache & Hoff).
  rewrite Hcache in Hd.
  destruct added as [|e1 added].
  { destruct (steps self package); [done|discriminate Hoff]. }
  unfold deskew in Hd.
  change (adjacent (?e0 :: e1 :: added)) with ((e0, e1) :: adjacent (e1 :: added)) in Hd.
  rewrite reverse_cons in Hd.
  assert (StronglySorted Qcle
            (PointType.curvature <$> std_sort (SyncPackage.cloud package))) as Hsorted.
  { apply Sorted_StronglySorted; [intros a b c; apply Qcle_trans|].
    apply Sorted_curvatures, std_sort_Sorted. }
  eapply (outer_loop_covers _ _ _ _ _ _ _ _ _ Hsorted Hd i (PointType.curvature p)).
  - apply lookup_lt_Some in Hp. lia.
  - by rewrite list_lookup_fmap, Hp.
  - exact Hpos.
Qed.

(** C1.  Every execution of the deskew inner loop's body, on a point [p]
    in the pose-cache interval [(head, tail)], overwrites the point's
    coordinates with
    [Rext^T (Rend^T (Rpt (Rext p + text) + ppt - pend) - text)], where
    [dt] is the point's offset in seconds minus [head]'s offset, [Rpt] is
    [head]'s rotation composed with the exponential of [tail]'s angular
    velocity times [dt], [ppt] is [head.pos + head.vel dt + 1/2 tail.acc
    dt^2], and the end pose is the estimator's state right after
    propagation.  The corrected cloud is the replay of the visits with
    that formula over the sorted scan; every visit is in an interval of
    consecutive pose-cache entries whose head the point's offset
    exceeds.  In an interval the inner loop overwrites the point under
    its cursor with the formula's image whenever the point's offset
    exceeds [head.offset], and goes on with the point before it.
    Whenever a pair of samples is integrated, every point of the sorted
    scan with a positive offset is visited.  A visited point other than
    the first ends as the formula's image, in the interval of its visit,
    of the point of the sorted scan. *)
Theorem undistort_applies_deskew_formula self package self' package' trace :
  undistort self package = Ok (self', package', trace) ->
  self' = propagate self package
  /\ SyncPackage.cloud package'
     = replay (IESKF.x (IMUProcessor.m_kf self')) trace (std_sort (SyncPackage.cloud package))
  /\ Forall (fun v =>
               (v_head v, v_tail v) ∈ adjacent (IMUProcessor.m_imu_poses_cache self')
               /\ consumed (PointType.curvature <$> std_sort (SyncPackage.cloud package)) v)
            trace
  /\ (forall head tail points it tr p,
        points !! S it = Some p -> Pose.offset head < seconds p ->
        walk (end_pose (IESKF.x (IMUProcessor.m_kf self'))) head tail points (S it) tr
        = walk (end_pose (IESKF.x (IMUProcessor.m_kf self'))) head tail
               (<[S it := deskewed (State.rot (IESKF.x (IMUProcessor.m_kf self')))
                                   (State.pos (IESKF.x (IMUProcessor.m_kf self')))
                                   (State.rot_ext (IESKF.x (IMUProcessor.m_kf self')))
                                   (State.pos_ext (IESKF.x (IMUProcessor.m_kf self')))
                                   head tail p]> points)
               it (tr ++ [MkVisit (S it) head tail]))
  /\ (steps self package <> [] ->
      forall i p,
        std_sort (SyncPackage.cloud package) !! i = Some p ->
        0 < seconds p -> i ∈ (v_index <$> trace))
  /\ (forall v p,
        v ∈ trace -> v_index v <> 0%nat ->
        std_sort (SyncPackage.cloud package) !! v_index v = Some p ->
        SyncPackage.cloud package' !! v_index v
        = Some (deskewed (State.rot (IESKF.x (IMUProcessor.m_kf self')))
                         (State.pos (IESKF.x (IMUProcessor.m_kf self')))
                         (State.rot_ext (IESKF.x (IMUProcessor.m_kf self')))
                         (State.pos_ext (IESKF.x (IMUProcessor.m_kf self')))
                         (v_head v) (v_tail v) p)).
Proof.
  intros H.
  pose proof (undistort_covers _ _ _ _ _ H) as Hcover.
  unfold undistort in H.
  destruct (deskew _ _ _) as [[points tr]|] eqn:Hd; [|done].
  cbn in H. injection H as <- <- <-.
  pose proof Hd as Hord. unfold deskew in Hord.
  apply outer_loop_order in Hord as (vs & Hvs & _ & Hdesc). cbn [app] in Hvs. subst vs.
  apply deskew_trace in Hd as [-> Hall].
  split_and!; [done..| |done|].
  { intros head tail pts it tr' p Hp Hlt. by apply walk_consumes. }
  intros v p Hv Hne Hp. cbn [SyncPackage.cloud set_cloud].
  apply replay_lookup_once; [by apply descends_NoDup|done..].
Qed.

End Deskew.

(** ** The compensation without rotation *)

Lemma mapply_mmul (A B : M3D) (v : V3D) : (A ** B) *v v = A *v (B *v v).
Proof.
  destruct A as [[a00 a01 a02] [a10 a11 a12] [a20 a21 a22]],
           B as [[b00 b01 b02] [b10 b11 b12] [b20 b21 b22]], v as [x y z].
  unfold mmul, mapply, dot, col0, col1, col2; cbn. f_equal; ring.
Qed.

Lemma mapply_identity (v : V3D) : midentity *v v = v.
Proof. destruct v as [x y z]. unfold mapply, midentity, dot; cbn. f_equal; ring. Qed.

Lemma mapply_vadd (A : M3D) (u v : V3D) : A *v (u +^ v) = A *v u +^ A *v v.
Proof.
  destruct A as [[a00 a01 a02] [a10 a11 a12] [a20 a21 a22]], u, v.
  unfold mapply, vadd, dot; cbn. f_equal; ring.
Qed.

Lemma vadd_vsub_assoc (a b c : V3D) : a +^ b -^ c = a +^ (b -^ c).
Proof. destruct a, b, c. unfold vadd, vsub; cbn. f_equal; ring. Qed.

Lemma vadd_cancel_middle (a t d : V3D) : a +^ t +^ d -^ t = a +^ d.
Proof. destruct a, t, d. unfold vadd, vsub; cbn. f_equal; ring. Qed.

Lemma vsub_diag (a : V3D) : a -^ a = vzero.
Proof. destruct a. unfold vsub, vzero; cbn. f_equal; ring. Qed.

Lemma mapply_vzero (A : M3D) : A *v vzero = vzero.
Proof.
  destruct A as [[a00 a01 a02] [a10 a11 a12] [a20 a21 a22]].
  unfold mapply, vzero, dot; cbn. f_equal; ring.
Qed.

Lemma vadd_vzero (a : V3D) : a +^ vzero = a.
Proof. destruct a. unfold vadd, vzero; cbn. f_equal; ring. Qed.

Lemma point_eq (p1 p2 : PointType.t) :
  coords p1 = coords p2 -> PointType.curvature p1 = PointType.curvature p2 -> p1 = p2.
Proof.
  destruct p1, p2. unfold coords; cbn. by intros [= -> -> ->] ->.
Qed.

Section Translation.

Context {ext : Externals}.

(** With orthonormal end and extrinsic rotations and a point whose
    extrapolated rotation is the end rotation, the compensation is a
    translation. *)
Lemma compensate_translation cur head tail p :
  transpose (cur_rot cur) ** cur_rot cur = midentity ->
  transpose (cur_rot_ext cur) ** cur_rot_ext cur = midentity ->
  extrapolated_rotation head tail (seconds p - Pose.offset head) = cur_rot cur ->
  coords (compensate cur head tail p)
  = coords p
    +^ transpose (cur_rot_ext cur)
       *v (transpose (cur_rot cur)
           *v (extrapolated_position head tail (seconds p - Pose.offset head)
               -^ cur_pos cur)).
Proof.
  intros HR Hext Hrot.
  unfold compensate, coords; cbn [PointType.x PointType.y PointType.z].
  unfold extrapolated_rotation, extrapolated_position, seconds in *.
  rewrite smul_half_sq, !vmuls_smul. rewrite Hrot.
  match goal with
  | |- Vec3 (vx ?u) (vy ?u) (vz ?u) = _ => transitivity u; [by destruct u|]
  end.
  rewrite vadd_vsub_assoc, mapply_vadd, <- mapply_mmul, HR, mapply_identity.
  rewrite vadd_cancel_middle, mapply_vadd, <- mapply_mmul, Hext, mapply_identity.
  reflexivity.
Qed.

(** X11.  When the end rotation and the extrinsic rotation are
    orthonormal and the rotation extrapolated to a point's instant is
    the end rotation, the compensation moves the point by the
    displacement from the end position to its extrapolated position,
    expressed in the sensor frame at the end pose, and keeps its time
    offset. *)
Theorem compensate_without_rotation_is_a_translation cur head tail p :
  transpose (cur_rot cur) ** cur_rot cur = midentity ->
  transpose (cur_rot_ext cur) ** cur_rot_ext cur = midentity ->
  extrapolated_rotation head tail (seconds p - Pose.offset head) = cur_rot cur ->
  coords (compensate cur head tail p)
  = coords p
    +^ transpose (cur_rot_ext cur)
       *v (transpose (cur_rot cur)
           *v (extrapolated_position head tail (seconds p - Pose.offset head)
               -^ cur_pos cur))
  /\ PointType.curvature (compensate cur head tail p) = PointType.curvature p.
Proof.
  intros HR Hext Hrot. split; [by apply compensate_translation | reflexivity].
Qed.

(** X12.  A point whose extrapolated pose is the end pose is written
    back unchanged: without motion between a point's instant and the
    scan's end the compensation does nothing. *)
Theorem compensate_at_end_pose_is_identity cur head tail p :
  transpose (cur_rot cur) ** cur_rot cur = midentity ->
  transpose (cur_rot_ext cur) ** cur_rot_ext cur = midentity ->
  extrapolated_rotation head tail (seconds p - Pose.offset head) = cur_rot cur ->
  extrapolated_position head tail (seconds p - Pose.offset head) = cur_pos cur ->
  compensate cur head tail p = p.
Proof.
  intros HR Hext Hrot Hpos.
  pose proof (compensate_translation cur head tail p HR Hext Hrot) as H.
  rewrite Hpos, vsub_diag, !mapply_vzero, vadd_vzero in H.
  by apply point_eq.
Qed.

End Translation.

(** * The further properties on sample data *)

(** X1 on the sample configuration: positive noise densities. *)
Lemma new_process_noise_witness :
  positive_diagonal (IMUProcessor.m_Q (Sample.fresh 2)).
Proof.
  apply (proj2 (proj2 (new_process_noise (Sample.config 2) Sample.kf (Sample.imu 0) 0)));
    reflexivity.
Defined.

(** X3 on a threshold of three: one sample, then a second one. *)
Lemma initialize_accumulates_witness :
  initialize (ext := reference)
    (set_imu_cache [Sample.imu 0] (Sample.fresh 3)) [Sample.imu (q 1 100)]
  = initialize (ext := reference) (Sample.fresh 3)
      ([Sample.imu 0] ++ [Sample.imu (q 1 100)]).
Proof.
  apply (initialize_accumulates (ext := reference) (Sample.fresh 3) [Sample.imu 0]).
  reflexivity.
Defined.

(** X4 on a threshold of five and the three samples of the scan. *)
Lemma process_passes_scan_through_until_ready_witness :
  exists self',
    process (ext := reference) (Sample.fresh 5) Sample.scan3 = Ok (self', Sample.scan3)
    /\ IMUProcessor.m_kf self' = IMUProcessor.m_kf (Sample.fresh 5)
    /\ IMUProcessor.m_imu_cache self'
       = IMUProcessor.m_imu_cache (Sample.fresh 5) ++ SyncPackage.imus Sample.scan3
    /\ IMUProcessor.is_initialized self' = false.
Proof.
  apply (process_passes_scan_through_until_ready (ext := reference)).
  - reflexivity.
  - cbn. lia.
Defined.

(** X5 on the three-point scan. *)
Lemma process_invariants_witness :
  exists self' sync',
    process (ext := reference) (Sample.processor 0 0) Sample.scan3 = Ok (self', sync')
    /\ IMUProcessor.m_config self' = Sample.config 2
    /\ IMUProcessor.is_initialized self' = true
    /\ length (SyncPackage.cloud sync') = 3%nat.
Proof.
  destruct (process (ext := reference) (Sample.processor 0 0) Sample.scan3)
    as [[self' sync']|] eqn:H.
  - exists self', sync'. split; [reflexivity|].
    destruct (process_invariants (ext := reference) _ _ _ _ H)
      as (Hc & _ & Hi & _ & _ & _ & Hl).
    split_and!; [exact Hc | by apply Hi | exact Hl].
  - vm_compute in H. discriminate H.
Defined.

(** X6 on the three-point scan: 12 ms are integrated. *)
Lemma propagate_integrates_up_to_scan_end_witness :
  total_dt (drop (length (IESKF.calls (IMUProcessor.m_kf (Sample.processor 0 0))))
                 (IESKF.calls (IMUProcessor.m_kf
                    (propagate (ext := reference) (Sample.processor 0 0) Sample.scan3))))
  = SyncPackage.cloud_end_time Sample.scan3
    - qmax (IMUData.timestamp (IMUProcessor.m_last_imu (Sample.processor 0 0)))
           (IMUProcessor.m_last_end_time (Sample.processor 0 0)).
Proof.
  apply (propagate_integrates_up_to_scan_end (ext := reference)); decide_by_eval.
Defined.

(** X7 on the scan without samples. *)
Lemma undistort_without_integrated_pair_witness :
  undistort (ext := reference) (Sample.processor 0 0) Sample.quiet_scan
  = Ok (propagate (ext := reference) (Sample.processor 0 0) Sample.quiet_scan,
        set_cloud (std_sort (SyncPackage.cloud Sample.quiet_scan)) Sample.quiet_scan, []).
Proof.
  apply (undistort_without_integrated_pair (ext := reference)). reflexivity.
Defined.

(** X8 on a fresh processor with a threshold of two and the three
    samples of the scan: the first prediction has [dt = 4 ms - 12 ms]. *)
Lemma process_first_prediction_goes_back_in_time_witness :
  exists self' sync' inp dt,
    process (ext := reference) (Sample.fresh 2) Sample.scan3 = Ok (self', sync')
    /\ IESKF.calls (IMUProcessor.m_kf self')
         !! length (IESKF.calls (IMUProcessor.m_kf (Sample.fresh 2)))
       = Some (inp, dt)
    /\ dt = IMUData.timestamp (Sample.imu (q 4 1000))
            - qmax (IMUData.timestamp
                      (List.last [Sample.imu (q 12 1000)] (Sample.imu (q 8 1000))))
                   (IMUProcessor.m_last_end_time (Sample.fresh 2))
    /\ dt < 0.
Proof.
  apply (process_first_prediction_goes_back_in_time (ext := reference)).
  - reflexivity.
  - reflexivity.
  - decide_by_eval.
  - cbn. lia.
  - decide_by_eval.
  - discriminate.
Defined.

(** X9 on the three-point scan: the point at 5 ms is compensated. *)
Lemma positive_offset_points_are_compensated_witness :
  exists self' package' trace,
    undistort (ext := reference) (Sample.processor 0 0) Sample.scan3
    = Ok (self', package', trace)
    /\ 1%nat ∈ (v_index <$> trace).
Proof.
  destruct (undistort (ext := reference) (Sample.processor 0 0) Sample.scan3)
    as [[[self' package'] trace]|] eqn:H.
  - exists self', package', trace. split; [reflexivity|].
    apply (proj1 (positive_offset_points_are_compensated (ext := reference) _ _ _ _ _ H
                    ltac:(discriminate))
             1%nat (Sample.point (q 3 1) 0 0 (q 5 1))).
    + decide_by_eval.
    + decide_by_eval.
  - vm_compute in H. discriminate H.
Defined.

(** X10 on the three-point scan. *)
Lemma points_are_visited_in_descending_order_witness :
  exists self' package' trace,
    undistort (ext := reference) (Sample.processor 0 0) Sample.scan3
    = Ok (self', package', trace)
    /\ NoDup (filter (fun i => i <> 0%nat) (v_index <$> trace)).
Proof.
  destruct (undistort (ext := reference) (Sample.processor 0 0) Sample.scan3)
    as [[[self' package'] trace]|] eqn:H.
  - exists self', package', trace. split; [reflexivity|].
    exact (proj1 (proj2
             (points_are_visited_in_descending_order (ext := reference) _ _ _ _ _ H))).
  - vm_compute in H. discriminate H.
Defined.

(** X11 on a platform moving at 1 m/s without rotation: a point taken
    at 5 ms, re-expressed at the pose of time 0, moves by 5 mm. *)
Lemma compensate_without_rotation_is_a_translation_witness :
  coords (compensate (ext := reference) (end_pose Sample.state)
            (pose_of 0 vzero vzero Sample.state) (pose_of 0 vzero vzero Sample.state)
            (Sample.point (q 1 1) 0 0 (q 5 1)))
  = Vec3 (q 201 200) 0 0.
Proof.
  destruct (compensate_without_rotation_is_a_translation (ext := reference)
              (end_pose Sample.state) (pose_of 0 vzero vzero Sample.state)
              (pose_of 0 vzero vzero Sample.state) (Sample.point (q 1 1) 0 0 (q 5 1)))
    as [Hc _]; [decide_by_eval..|].
  rewrite Hc. decide_by_eval.
Defined.

(** X12 on a platform at rest. *)
Lemma compensate_at_end_pose_is_identity_witness :
  compensate (ext := reference) Sample.rest_end Sample.rest_pose Sample.rest_pose
    (Sample.point (q 1 1) 0 0 (q 5 1))
  = Sample.point (q 1 1) 0 0 (q 5 1).
Proof.
  apply (compensate_at_end_pose_is_identity (ext := reference)); decide_by_eval.
Defined.

(** C1 on the three-point scan.  The sorted scan has offsets 0, 5 and
    10 ms; the pass overwrites the point at 10 ms, then the point at
    5 ms, and leaves the point at 0: their x coordinates become 0.998
    and 2.993.  The corrected cloud is the replay of these visits with
    the specification's formula, and the point at 10 ms is the formula's
    image of the sorted scan's. *)
Lemma undistort_applies_deskew_formula_witness :
  exists self' package' trace,
    undistort (ext := reference) (Sample.processor 0 0) Sample.scan3
    = Ok (self', package', trace)
    /\ std_sort (SyncPackage.cloud Sample.scan3)
       = [Sample.point (q 2 1) 0 0 0; Sample.point (q 3 1) 0 0 (q 5 1);
          Sample.point (q 1 1) 0 0 (q 10 1)]
    /\ v_index <$> trace = [2%nat; 1%nat]
    /\ SyncPackage.cloud package'
       = [Sample.point (q 2 1) 0 0 0; Sample.point (q 2993 1000) 0 0 (q 5 1);
          Sample.point (q 499 500) 0 0 (q 10 1)]
    /\ SyncPackage.cloud package'
       = replay (ext := reference) (IESKF.x (IMUProcessor.m_kf self')) trace
                (std_sort (SyncPackage.cloud Sample.scan3))
    /\ (1%nat ∈ (v_index <$> trace))
    /\ (forall v,
          v ∈ trace -> v_index v = 2%nat ->
          SyncPackage.cloud package' !! 2%nat
          = Some (deskewed (ext := reference)
                    (State.rot (IESKF.x (IMUProcessor.m_kf self')))
                    (State.pos (IESKF.x (IMUProcessor.m_kf self')))
                    (State.rot_ext (IESKF.x (IMUProcessor.m_kf self')))
                    (State.pos_ext (IESKF.x (IMUProcessor.m_kf self')))
                    (v_head v) (v_tail v) (Sample.point (q 1 1) 0 0 (q 10 1)))).
Proof.
  assert (observed (undistort (ext := reference) (Sample.processor 0 0) Sample.scan3)
          = Some ([0; q 4 1000; q 8 1000; q 12 1000], [2%nat; 1%nat],
                  [Sample.point (q 2 1) 0 0 0; Sample.point (q 2993 1000) 0 0 (q 5 1);
                   Sample.point (q 499 500) 0 0 (q 10 1)])) as Hobs
    by decide_by_eval.
  destruct (undistort (ext := reference) (Sample.processor 0 0) Sample.scan3)
    as [[[self' package'] trace]|] eqn:H; [|discriminate Hobs].
  cbn [observed] in Hobs. injection Hobs as _ Hidx Hcloud.
  destruct (undistort_applies_deskew_formula (ext := reference) _ _ _ _ _ H)
    as (_ & Hreplay & _ & _ & Hcover & Honce).
  exists self', package', trace. split_and!.
  - reflexivity.
  - decide_by_eval.
  - exact Hidx.
  - exact Hcloud.
  - exact Hreplay.
  - apply (Hcover ltac:(discriminate) 1%nat (Sample.point (q 3 1) 0 0 (q 5 1)));
      decide_by_eval.
  - intros v Hv Hi. rewrite <- Hi. apply Honce; [done|by rewrite Hi|].
    rewrite Hi. decide_by_eval.
Defined.

(** X13 on the three-point scan followed by the next one: 12 ms. *)
Lemma successive_calls_integrate_between_scan_ends_witness :
  total_dt (drop (length (IESKF.calls (IMUProcessor.m_kf
                    (propagate (ext := reference) (Sample.processor 0 0) Sample.scan3))))
                 (IESKF.calls (IMUProcessor.m_kf
                    (propagate (ext := reference)
                       (propagate (ext := reference) (Sample.processor 0 0) Sample.scan3)
                       Sample.scan3_next))))
  = SyncPackage.cloud_end_time Sample.scan3_next - SyncPackage.cloud_end_time Sample.scan3.
Proof.
  apply (successive_calls_integrate_between_scan_ends (ext := reference));
    decide_by_eval.
Defined.
